(** * Verification of the gomarkdoc command pipeline (package cmd)

    Shallow embedding of [src/cmd/command.go] and [src/cmd/output.go]:
    path expansion ([GetSpecs]), tag fallback ([DefaultTags]), grouping of
    specs by output file ([WriteOutput]), check mode ([CheckFile],
    [Compare]) and embedding into existing files ([EmbedContents]).

    Go strings and byte slices are modelled as [list ascii] (an [ascii] is
    one byte). *)

From Stdlib Require Import Ascii String List Bool Arith Lia ZArith Permutation.
From stdpp Require Import gmap strings.
Import ListNotations.

Open Scope list_scope.

Definition bytes := list ascii.

(** String literals of the source, as byte lists. *)
Definition lit (s : string) : bytes := list_ascii_of_string s.

Definition nl : ascii := "010"%char.

(** ** Byte-level helpers *)

Fixpoint bytes_eqb (a b : bytes) : bool :=
  match a, b with
  | [], [] => true
  | x :: a', y :: b' => Ascii.eqb x y && bytes_eqb a' b'
  | _, _ => false
  end.

(** [strings.HasPrefix]-style stripping: [Some rest] when [s = p ++ rest]. *)
Fixpoint strip_prefix (p s : bytes) : option bytes :=
  match p, s with
  | [], _ => Some s
  | c :: p', d :: s' => if Ascii.eqb c d then strip_prefix p' s' else None
  | _ :: _, [] => None
  end.

(** ** The merge regular expressions of output.go

    The pattern sources of [embedStandaloneRegex] and [embedStartRegex]
    are recorded below as strings.  Go's regexp package is case-sensitive
    unless the pattern has the [i] flag, which neither pattern has.  [\s]
    is Go's Perl class of the bytes 9, 10, 12, 13 and 32.  Each greedy
    repetition below is followed by a literal its class cannot contain, so
    the first (leftmost-first) match takes the whole run and the matchers
    are deterministic; the two lazy parts are searched shortest-first. *)

Definition embedStandaloneRegex_src : string :=
  "(?m:^ *)<!--\s*gomarkdoc:Embed\s*-->(?m:\s*?$)".

Definition embedStartRegex_src : string :=
  "(?m:^ *)<!--\s*gomarkdoc:Embed:start\s*-->(?s:.*?)<!--\s*gomarkdoc:Embed:end\s*-->(?m:\s*?$)".

Definition is_go_space (c : ascii) : bool :=
  match nat_of_ascii c with
  | 9 | 10 | 12 | 13 | 32 => true
  | _ => false
  end.

Definition is_blank (c : ascii) : bool := Ascii.eqb c " "%char.

(** Greedy repetition of a one-byte class: the consumed run and the rest. *)
Fixpoint span (p : ascii -> bool) (s : bytes) : bytes * bytes :=
  match s with
  | c :: s' => if p c then let '(a, r) := span p s' in (c :: a, r) else ([], s)
  | [] => ([], [])
  end.

(** [(?m:\s*?$)]: the fewest [\s] bytes after which the input ends or a
    newline follows. *)
Fixpoint lazy_space_eol (s : bytes) : option (bytes * bytes) :=
  match s with
  | [] => Some ([], [])
  | c :: s' =>
      if Ascii.eqb c nl then Some ([], s)
      else if is_go_space c then
        match lazy_space_eol s' with
        | Some (a, r) => Some (c :: a, r)
        | None => None
        end
      else None
  end.

(** A literal piece of a pattern. *)
Definition match_lit (p s : bytes) : option (bytes * bytes) :=
  match strip_prefix p s with
  | Some r => Some (p, r)
  | None => None
  end.

Definition kw : bytes := lit "gomarkdoc:Embed".

(** [<!--\s*KEYWORD\s*-->]: an HTML comment holding [KEYWORD]. *)
Definition match_comment (key : bytes) (s : bytes) : option (bytes * bytes) :=
  match match_lit (lit "<!--") s with
  | None => None
  | Some (m1, s1) =>
      let '(w1, s2) := span is_go_space s1 in
      match match_lit key s2 with
      | None => None
      | Some (m2, s3) =>
          let '(w2, s4) := span is_go_space s3 in
          match match_lit (lit "-->") s4 with
          | None => None
          | Some (m3, s5) => Some (m1 ++ w1 ++ m2 ++ w2 ++ m3, s5)
          end
      end
  end.

(** The leading line anchor and space run of both patterns: at the
    beginning of a line ([bol]), the run of spaces. *)
Definition match_line_start (bol : bool) (s : bytes) : option (bytes * bytes) :=
  if bol then Some (span is_blank s) else None.

(** [embedStandaloneRegex], tried at one position: [bol] tells whether the
    position is the start of the input or follows a newline. *)
Definition embedStandalone_at (bol : bool) (s : bytes) : option (bytes * bytes) :=
  match match_line_start bol s with
  | None => None
  | Some (sp, s1) =>
      match match_comment kw s1 with
      | None => None
      | Some (c, s2) =>
          match lazy_space_eol s2 with
          | None => None
          | Some (w, s3) => Some (sp ++ c ++ w, s3)
          end
      end
  end.

(** The tail of [embedStartRegex] after [(?s:.*?)]. *)
Definition embedEnd_at (s : bytes) : option (bytes * bytes) :=
  match match_comment (kw ++ lit ":end") s with
  | None => None
  | Some (c, s1) =>
      match lazy_space_eol s1 with
      | None => None
      | Some (w, s2) => Some (c ++ w, s2)
      end
  end.

(** [(?s:.*?)] followed by the end marker: the shortest run of arbitrary
    bytes after which the end marker matches. *)
Fixpoint lazy_until_end (s : bytes) : option (bytes * bytes) :=
  match embedEnd_at s with
  | Some m => Some m
  | None =>
      match s with
      | [] => None
      | c :: s' =>
          match lazy_until_end s' with
          | Some (a, r) => Some (c :: a, r)
          | None => None
          end
      end
  end.

Definition embedStart_at (bol : bool) (s : bytes) : option (bytes * bytes) :=
  match match_line_start bol s with
  | None => None
  | Some (sp, s1) =>
      match match_comment (kw ++ lit ":start") s1 with
      | None => None
      | Some (c, s2) =>
          match lazy_until_end s2 with
          | None => None
          | Some (body, s3) => Some (sp ++ c ++ body, s3)
          end
      end
  end.

(** ** [Regexp.ReplaceAllFunc] with a constant replacement, counting the
    calls of the replacement function (the [replacements++] of
    [EmbedContents]).

    The scan tries a match at each position left to right; after a match it
    resumes at the match end ([skip] counts the matched bytes still to
    drop).  [bol] is the [(?m:^)] context: true at the start of the input
    and after a newline.  Neither pattern matches the empty string (both
    need [<!--]), so Go's special handling of empty matches never applies. *)
Section ReplaceAll.
Variable matcher : bool -> bytes -> option (bytes * bytes).
Variable repl : bytes.

Fixpoint replace_scan (bol : bool) (skip : nat) (s : bytes) : bytes * nat :=
  match s with
  | [] => ([], 0)
  | c :: s' =>
      let bol' := Ascii.eqb c nl in
      match skip with
      | S k => replace_scan bol' k s'
      | O =>
          match matcher bol s with
          | Some (m, _) =>
              let '(o, n) := replace_scan bol' (length m - 1) s' in
              (repl ++ o, S n)
          | None =>
              let '(o, n) := replace_scan bol' 0 s' in (c :: o, n)
          end
      end
  end.

Definition replace_all (s : bytes) : bytes * nat := replace_scan true 0 s.
End ReplaceAll.

(** ** [EmbedContents]

    [existing] is the result of [os.ReadFile(fileName)]: [None] for any
    read error (the source does not distinguish them). *)
Definition embed_text (text : bytes) : bytes :=
  lit "<!-- gomarkdoc:Embed:start -->" ++ [nl; nl] ++ text ++ [nl; nl]
  ++ lit "<!-- gomarkdoc:Embed:end -->".

Definition EmbedContents (existing : option bytes) (text : bytes) : bytes :=
  let embedText := embed_text text in
  match existing with
  | None => embedText
  | Some data =>
      let '(data1, r1) := replace_all embedStandalone_at embedText data in
      let '(data2, r2) := replace_all embedStart_at embedText data1 in
      if Nat.eqb (r1 + r2) 0 then data2 ++ [nl; nl] ++ text
      else data2
  end.

(** ** Predicates and markers used by the proofs *)

Definition all_ws (w : bytes) : Prop := Forall (fun c => is_go_space c = true) w.
Definition all_blank (w : bytes) : Prop := Forall (fun c => is_blank c = true) w.

(** [kw] does not occur in [s]. *)
Definition kw_free (s : bytes) : Prop := forall x z, s <> x ++ kw ++ z.

Fixpoint bol_after (b : bool) (s : bytes) : bool :=
  match s with
  | [] => b
  | c :: s' => bol_after (Ascii.eqb c nl) s'
  end.

(** A line end follows: [lazy_space_eol] takes nothing. *)
Definition at_eol (q : bytes) : Prop := q = [] \/ exists q', q = nl :: q'.

Ltac not_in_lit := let H := fresh in intros H; simpl in H;
  repeat (destruct H as [H|H]; [discriminate H|]); exact H.

Definition standalone_marker : bytes := lit "<!-- gomarkdoc:Embed -->".
Definition start_marker : bytes := lit "<!-- gomarkdoc:Embed:start -->".
Definition end_marker : bytes := lit "<!-- gomarkdoc:Embed:end -->".

Definition ends_line (P : bytes) : Prop := P = [] \/ exists P', P = P' ++ [nl].

(** Every occurrence of the keyword in [s] is followed by [':']. *)
Definition colon_after (s : bytes) : Prop :=
  forall x z, s = x ++ kw ++ z -> exists z', z = ":"%char :: z'.

Fixpoint tails_after (p s : bytes) : list bytes :=
  (match strip_prefix p s with Some z => [z] | None => [] end) ++
  (match s with [] => [] | _ :: s' => tails_after p s' end).

(** Both patterns need a comment holding the keyword after a run of
    spaces at a line start. *)
Definition line_marker_shape (matcher : bool -> bytes -> option (bytes * bytes)) : Prop :=
  forall b s m r, matcher b s = Some (m, r) ->
  exists sp w z, all_blank sp /\ all_ws w /\ s = sp ++ lit "<!--" ++ w ++ kw ++ z.

(** ** Files made of several marker occurrences *)
Inductive marker := Standalone | Region (content : bytes).

Definition marker_text (m : marker) : bytes :=
  match m with
  | Standalone => standalone_marker
  | Region C => start_marker ++ C ++ end_marker
  end.

(** A file tail: each marker followed by the text up to the next one. *)
Fixpoint blocks_text (bs : list (marker * bytes)) : bytes :=
  match bs with
  | [] => []
  | (m, P) :: bs' => marker_text m ++ P ++ blocks_text bs'
  end.

Fixpoint blocks_replaced (T : bytes) (bs : list (marker * bytes)) : bytes :=
  match bs with
  | [] => []
  | (_, P) :: bs' => embed_text T ++ P ++ blocks_replaced T bs'
  end.

Definition marker_ok (m : marker) : Prop :=
  match m with Standalone => True | Region C => kw_free C end.

(** Each marker ends its line, and a marker that is not the last is
    followed by text that ends a line, so the next one starts a line. *)
Fixpoint wf_blocks (bs : list (marker * bytes)) : Prop :=
  match bs with
  | [] => True
  | (m, P) :: bs' =>
      marker_ok m /\ kw_free P /\ at_eol P /\
      (bs' = [] \/ (P <> [] /\ ends_line P)) /\ wf_blocks bs'
  end.

Definition to_region (T : bytes) (b : marker * bytes) : marker * bytes :=
  match b with
  | (Standalone, P) => (Region ([nl; nl] ++ T ++ [nl; nl]), P)
  | _ => b
  end.

Fixpoint count_standalone (bs : list (marker * bytes)) : nat :=
  match bs with
  | [] => 0
  | (Standalone, _) :: bs' => S (count_standalone bs')
  | _ :: bs' => count_standalone bs'
  end.

Definition no_standalone (bs : list (marker * bytes)) : Prop :=
  Forall (fun b => fst b <> Standalone) bs.

(** ** Executable versions of the side conditions *)
Definition prefixb (p s : bytes) : bool :=
  match strip_prefix p s with Some _ => true | None => false end.

Fixpoint kw_freeb (s : bytes) : bool :=
  match s with
  | [] => true
  | _ :: s' => negb (prefixb kw s) && kw_freeb s'
  end.

Definition ends_lineb (P : bytes) : bool :=
  match rev P with [] => true | c :: _ => Ascii.eqb c nl end.

Definition at_eolb (q : bytes) : bool :=
  match q with [] => true | c :: _ => Ascii.eqb c nl end.

Definition marker_okb (m : marker) : bool :=
  match m with Standalone => true | Region C => kw_freeb C end.

Fixpoint wf_blocksb (bs : list (marker * bytes)) : bool :=
  match bs with
  | [] => true
  | (m, P) :: bs' =>
      marker_okb m && kw_freeb P && at_eolb P &&
      match bs' with
      | [] => true
      | _ => negb (match P with [] => true | _ => false end) && ends_lineb P
      end && wf_blocksb bs'
  end.

Definition c3_prefix : bytes := lit "# Title" ++ [nl].
Definition c3_blocks : list (marker * bytes) :=
  [(Standalone, [nl] ++ lit "between" ++ [nl]); (Region (lit "old docs"), [nl])].

(** The patterns only match text that holds the keyword. *)
Definition needs_kw (matcher : bool -> bytes -> option (bytes * bytes)) : Prop :=
  forall bol s m r, matcher bol s = Some (m, r) -> exists x z, s = x ++ kw ++ z.

(** ** Go standard library functions used by the command *)

Module utf8.
Definition RuneError : N := 65533.
Definition byte (c : ascii) : N := N_of_ascii c.
Definition cont (lo hi : N) (c : ascii) : bool := (lo <=? byte c)%N && (byte c <=? hi)%N.

(** [utf8.DecodeRuneInString]: the rune at the start of [s] and its
    width; [(RuneError, 1)] for an invalid or truncated encoding. *)
Definition DecodeRune (s : bytes) : N * nat :=
  match s with
  | [] => (RuneError, 0)
  | b0 :: s' =>
    let x := byte b0 in
    if (x <? 128)%N then (x, 1)
    else if ((194 <=? x) && (x <=? 223))%N then
      match s' with
      | b1 :: _ => if cont 128 191 b1
                   then (N.lor (N.shiftl (N.land x 31) 6) (N.land (byte b1) 63), 2)
                   else (RuneError, 1)
      | _ => (RuneError, 1)
      end
    else if ((224 <=? x) && (x <=? 239))%N then
      let lo := if (x =? 224)%N then 160%N else 128%N in
      let hi := if (x =? 237)%N then 159%N else 191%N in
      match s' with
      | b1 :: b2 :: _ =>
          if cont lo hi b1 && cont 128 191 b2
          then (N.lor (N.lor (N.shiftl (N.land x 15) 12) (N.shiftl (N.land (byte b1) 63) 6))
                      (N.land (byte b2) 63), 3)
          else (RuneError, 1)
      | _ => (RuneError, 1)
      end
    else if ((240 <=? x) && (x <=? 244))%N then
      let lo := if (x =? 240)%N then 144%N else 128%N in
      let hi := if (x =? 244)%N then 143%N else 191%N in
      match s' with
      | b1 :: b2 :: b3 :: _ =>
          if cont lo hi b1 && cont 128 191 b2 && cont 128 191 b3
          then (N.lor (N.lor (N.lor (N.shiftl (N.land x 7) 18)
                                    (N.shiftl (N.land (byte b1) 63) 12))
                             (N.shiftl (N.land (byte b2) 63) 6))
                      (N.land (byte b3) 63), 4)
          else (RuneError, 1)
      | _ => (RuneError, 1)
      end
    else (RuneError, 1)
  end.
End utf8.

Module unicode.
(** [unicode.IsSpace]. *)
Definition IsSpace (r : N) : bool :=
  if (r <=? 255)%N then
    match r with
    | 9 | 10 | 11 | 12 | 13 | 32 | 133 | 160 => true
    | _ => false
    end%N
  else
    (r =? 5760)%N || ((8192 <=? r) && (r <=? 8202))%N || (r =? 8232)%N
    || (r =? 8233)%N || (r =? 8239)%N || (r =? 8287)%N || (r =? 12288)%N.
End unicode.

Module gostrings.
Fixpoint HasPrefix (s prefix : string) : bool :=
  match prefix, s with
  | EmptyString, _ => true
  | String c p', String d s' => Ascii.eqb c d && HasPrefix s' p'
  | String _ _, EmptyString => false
  end.

Definition HasSuffix (s suffix : string) : bool :=
  (String.length suffix <=? String.length s)
  && String.eqb (substring (String.length s - String.length suffix)
                           (String.length suffix) s) suffix.

(** [strings.FieldsFunc(s, unicode.IsSpace)], which is what [strings.Fields]
    computes on every input (its ASCII fast path gives the same fields).
    [cur] is the field being read, reversed. *)
Fixpoint fields_loop (fuel : nat) (s : bytes) (cur : bytes) : list bytes :=
  match fuel with
  | O => []
  | S fuel' =>
    match s with
    | [] => match cur with [] => [] | _ => [rev cur] end
    | _ =>
      let '(r, n) := utf8.DecodeRune s in
      if unicode.IsSpace r then
        match cur with
        | [] => fields_loop fuel' (skipn n s) []
        | _ => rev cur :: fields_loop fuel' (skipn n s) []
        end
      else fields_loop fuel' (skipn n s) (rev (firstn n s) ++ cur)
    end
  end.

Definition Fields (s : string) : list string :=
  map string_of_list_ascii
      (fields_loop (S (String.length s)) (list_ascii_of_string s) []).

(** [strings.Split(s, sep)] for a one-byte separator. *)
Fixpoint split_loop (sep : ascii) (s : bytes) (cur : bytes) : list bytes :=
  match s with
  | [] => [rev cur]
  | c :: s' => if Ascii.eqb c sep then rev cur :: split_loop sep s' []
               else split_loop sep s' (c :: cur)
  end.

Definition Split (s : string) (sep : ascii) : list string :=
  map string_of_list_ascii (split_loop sep (list_ascii_of_string s) []).
End gostrings.

Module filepath.
Definition Separator : ascii := "/".
Definition IsPathSeparator (c : ascii) : bool := Ascii.eqb c Separator.

(** Unix: [FromSlash] is the identity. *)
Definition FromSlash (p : string) : string := p.

Definition IsAbs (p : string) : bool := gostrings.HasPrefix p "/".

Definition sep_or_end (s : string) : bool :=
  match s with EmptyString => true | String c _ => IsPathSeparator c end.

(** [out.w--] followed by the backtracking loop of the [..] case, on the
    output buffer kept reversed (its head is the last byte written). *)
Fixpoint drop_seg (dotdot : nat) (outr : list ascii) : list ascii :=
  match outr with
  | [] => []
  | c :: outr' =>
      if (dotdot <? length outr') && negb (IsPathSeparator c)
      then drop_seg dotdot outr' else outr'
  end.

Fixpoint copy_seg (s : string) (outr : list ascii) : string * list ascii :=
  match s with
  | String c s' => if IsPathSeparator c then (s, outr) else copy_seg s' (c :: outr)
  | EmptyString => (s, outr)
  end.

Definition add_sep (rooted : bool) (outr : list ascii) : list ascii :=
  if (rooted && negb (length outr =? 1)) || (negb rooted && negb (length outr =? 0))
  then Separator :: outr else outr.

(** [path[r] == '.' && path[r+1] == '.' && (r+2 == n || IsPathSeparator(path[r+2]))],
    with [c] = [path[r]] and [rest'] = [path[r+1:]]. *)
Definition is_dotdot (c : ascii) (rest' : string) : bool :=
  match rest' with
  | String d rest'' => Ascii.eqb c "." && Ascii.eqb d "." && sep_or_end rest''
  | EmptyString => false
  end.

Definition tail (s : string) : string :=
  match s with String _ s' => s' | EmptyString => EmptyString end.

(** The main loop of [Clean]: [rest] is [path[r:]] and [outr] the
    buffer [out], reversed; each round consumes at least one byte, so
    [len(path)] rounds suffice. *)
Fixpoint clean_loop (fuel : nat) (rooted : bool) (rest : string)
         (outr : list ascii) (dotdot : nat) : list ascii :=
  match fuel with
  | O => outr
  | S fuel' =>
    match rest with
    | EmptyString => outr
    | String c rest' =>
      if IsPathSeparator c then clean_loop fuel' rooted rest' outr dotdot
      else if Ascii.eqb c "." && sep_or_end rest' then
        clean_loop fuel' rooted rest' outr dotdot
      else if is_dotdot c rest' then
        let rest'' := tail rest' in
        if dotdot <? length outr then
          clean_loop fuel' rooted rest'' (drop_seg dotdot outr) dotdot
        else if negb rooted then
          let outr1 := if 0 <? length outr then Separator :: outr else outr in
          clean_loop fuel' rooted rest'' ("." :: "." :: outr1)%char (2 + length outr1)
        else clean_loop fuel' rooted rest'' outr dotdot
      else
        let '(rest2, outr2) := copy_seg rest (add_sep rooted outr) in
        clean_loop fuel' rooted rest2 outr2 dotdot
    end
  end.

Definition Clean (path : string) : string :=
  match path with
  | EmptyString => "."
  | String c path' =>
      let rooted := IsPathSeparator c in
      let '(rest, outr, dotdot) :=
        if rooted then (path', [Separator], 1) else (path, [], 0) in
      let outr' := clean_loop (String.length path) rooted rest outr dotdot in
      match outr' with
      | [] => "."
      | _ => FromSlash (string_of_list_ascii (rev outr'))
      end
  end.

Fixpoint last_sep_prefix (s : string) : string :=
  (* [path[:i+1]] for the last separator [i], or [""] *)
  match s with
  | EmptyString => EmptyString
  | String c s' =>
      match last_sep_prefix s' with
      | EmptyString => if IsPathSeparator c then String c EmptyString else EmptyString
      | p => String c p
      end
  end.

Definition Dir (path : string) : string := Clean (last_sep_prefix path).

Fixpoint join_sep (elems : list string) : string :=
  match elems with
  | [] => ""
  | [e] => e
  | e :: es => e ++ String Separator (join_sep es)
  end.

Fixpoint Join (elems : list string) : string :=
  match elems with
  | [] => ""
  | e :: es => if String.eqb e "" then Join es else Clean (join_sep elems)
  end.
End filepath.


(** ** [DefaultTags] *)

Module flag.
(** The [goflags] flag set of [DefaultTags]: one string flag, [Tags],
    created with [flag.ContinueOnError]. *)
Record FlagSet := mkFlagSet {
  args : list string;          (* [f.args]: arguments not yet parsed *)
  tags : string;               (* the value behind [tags := fs.String("Tags", "", "")] *)
  actual : list string         (* names of the flags set so far *)
}.

Definition formal (name : string) : bool := String.eqb name "Tags".

(** [name[i:]] split at the first ['='] at an index [i >= 1]. *)
Fixpoint split_eq (name : string) : string * option string :=
  match name with
  | EmptyString => (EmptyString, None)
  | String c rest =>
      if Ascii.eqb c "=" then (EmptyString, Some rest)
      else let '(n, v) := split_eq rest in (String c n, v)
  end.

Definition split_value (name : string) : string * option string :=
  match name with
  | EmptyString => (EmptyString, None)
  | String c rest => let '(n, v) := split_eq rest in (String c n, v)
  end.

(** the [parseOne] method of [*FlagSet]: [(seen, err, f')]. *)
Definition parseOne (f : FlagSet) : bool * option string * FlagSet :=
  match args f with
  | [] => (false, None, f)
  | s :: rest =>
    match s with
    | String "-" (String c1 s2) =>
      let '(numMinuses, name) :=
        if Ascii.eqb c1 "-" then (2, s2) else (1, String c1 s2) in
      if (numMinuses =? 2) && String.eqb s2 "" then
        (false, None, mkFlagSet rest (tags f) (actual f))
      else
      match name with
      | EmptyString => (false, Some (String.append "bad flag syntax: " s), f)
      | String c0 _ =>
        if Ascii.eqb c0 "-" || Ascii.eqb c0 "=" then
          (false, Some (String.append "bad flag syntax: " s), f)
        else
          let f1 := mkFlagSet rest (tags f) (actual f) in
          let '(name, v) := split_value name in
          if negb (formal name) then
            if String.eqb name "help" || String.eqb name "h"
            then (false, Some "flag: help requested", f1)
            else (false, Some (String.append "flag provided but not defined: -" name), f1)
          else
            let '(value, f2) :=
              match v, args f1 with
              | Some value, _ => (Some value, f1)
              | None, a :: rest' => (Some a, mkFlagSet rest' (tags f1) (actual f1))
              | None, [] => (None, f1)
              end in
            match value with
            | None => (false, Some (String.append "flag needs an argument: -" name), f2)
            | Some value =>
                (true, None, mkFlagSet (args f2) value (name :: actual f2))
            end
      end
    | _ => (false, None, f)
    end
  end.

(** the [Parse] method of [*FlagSet] with [ContinueOnError]: [parseOne] until it
    reports no flag; every flag consumes an argument, so
    [length arguments + 1] rounds suffice. *)
Fixpoint parse_loop (fuel : nat) (f : FlagSet) : option string * FlagSet :=
  match fuel with
  | O => (None, f)
  | S fuel' =>
    match parseOne f with
    | (true, _, f') => parse_loop fuel' f'
    | (false, None, f') => (None, f')
    | (false, Some err, f') => (Some err, f')
    end
  end.

Definition Parse (f : FlagSet) (arguments : list string) : option string * FlagSet :=
  parse_loop (S (length arguments)) (mkFlagSet arguments (tags f) (actual f)).
End flag.

(** [DefaultTags], with [os.LookupEnv("GOFLAGS")] as its argument [goflags]
    ([None] when the variable is unset).  Go's [nil] slice is [[]]. *)
Definition DefaultTags (goflags : option string) : list string :=
  match goflags with
  | None => []
  | Some f =>
      let fs := flag.mkFlagSet [] "" [] in
      match flag.Parse fs (gostrings.Fields f) with
      | (Some _, _) => []
      | (None, fs') => gostrings.Split (flag.tags fs') ","
      end
  end.

(** ** The FNV-128 digest of [Compare] *)

Module fnv.
Definition offset128 : Z := 0x6c62272e07bb014262b821756295c58d.
Definition prime128 : Z := 2 ^ 88 + 0x13b.
Definition modulus : Z := 2 ^ 128.

(** One byte of the [Write] method of [*sum128]: multiply by the prime modulo 2^128,
    then xor the byte into the low bits (FNV-1). *)
Definition step (h : Z) (c : ascii) : Z :=
  Z.lxor ((h * prime128) mod modulus) (Z.of_N (N_of_ascii c)).

Definition hash128 (s : bytes) : Z := fold_left step s offset128.

(** the [Sum(nil)] method of [*sum128]: the 16 bytes of the state, big-endian. *)
Definition Sum (h : Z) : list Z :=
  map (fun i => Z.land (Z.shiftr h (8 * Z.of_nat (15 - i))) 255) (seq 0 16).
End fnv.

Fixpoint list_Z_eqb (a b : list Z) : bool :=
  match a, b with
  | [], [] => true
  | x :: a', y :: b' => Z.eqb x y && list_Z_eqb a' b'
  | _, _ => false
  end.


(** ** Errors, files and the output step of [WriteOutput] *)

(** The error values the code creates or compares. *)
Inductive go_error :=
| ErrNotExist                              (* the sentinel [os.ErrNotExist] *)
| PathError (op path err : string)         (* [*fs.PathError] from [os.Open] *)
| ErrorString (msg : string)               (* [errors.New(msg)] *)
| Wrapped (prefix : string) (inner : go_error).  (* [fmt.Errorf("...: %w", .., inner)] *)

Fixpoint Error (e : go_error) : string :=
  match e with
  | ErrNotExist => "file does not exist"
  | PathError op path err => op ++ " " ++ path ++ ": " ++ err
  | ErrorString msg => msg
  | Wrapped prefix inner => prefix ++ Error inner
  end%string.

(** Go's [err == os.ErrNotExist]: an interface comparison, true only for
    the sentinel value itself. *)
Definition is_ErrNotExist (e : go_error) : bool :=
  match e with ErrNotExist => true | _ => false end.

Definition ENOENT : string := "no such file or directory".

(** The files of the file system, by path. *)
Record world := mkWorld { files : gmap string bytes }.

(** The observable effects of the output step, in order. *)
Inductive event :=
| EvStdout (text : bytes)
| EvReadFile (path : string)
| EvOpen (path : string)
| EvMkdirAll (path : string)
| EvWriteFile (path : string) (data : bytes).

(** [os.ReadFile]: any error is [None] ([EmbedContents] does not look at it). *)
Definition os_ReadFile (w : world) (name : string) : list event * option bytes :=
  ([EvReadFile name], files w !! name).

Definition os_Open (w : world) (name : string) : list event * (bytes + go_error) :=
  ([EvOpen name],
   match files w !! name with
   | Some data => inl data
   | None => inr (PathError "open" name ENOENT)
   end).

(** [EmbedContents] with its [os.ReadFile]. *)
Definition EmbedContents_io (w : world) (fileName : string) (text : bytes)
  : list event * bytes :=
  let '(ev, existing) := os_ReadFile w fileName in
  (ev, EmbedContents existing text).

(** An [io.Reader]: the bytes it delivers, then [io.EOF] ([read_err = None])
    or a read error. *)
Record stream := mkStream { contents : bytes; read_err : option go_error }.

Definition Compare (r1 r2 : stream) : bool * option go_error :=
  let wrap e := Wrapped "gomarkdoc: failed when checking documentation: " e in
  match read_err r1 with
  | Some e => (false, Some (wrap e))
  | None =>
    match read_err r2 with
    | Some e => (false, Some (wrap e))
    | None =>
      (list_Z_eqb (fnv.Sum (fnv.hash128 (contents r1)))
                  (fnv.Sum (fnv.hash128 (contents r2))), None)
    end
  end.

Definition checkErr : go_error :=
  ErrorString "Output does not match current files. Did you forget to run gomarkdoc?".

Definition CheckFile (w : world) (b : bytes) (path : string) : list event * option go_error :=
  let '(ev, r) := os_Open w path in
  match r with
  | inr err =>
      (ev, Some (if is_ErrNotExist err then checkErr
                 else Wrapped ("failed to open file " ++ path ++ " for checking: ") err))
  | inl data =>
      let '(m, err) := Compare (mkStream b None) (mkStream data None) in
      match err with
      | Some e =>
          (ev, Some (Wrapped ("failure while attempting to Check contents of "
                              ++ path ++ ": ") e))
      | None => (ev, if m then None else Some checkErr)
      end
  end.

(** [WriteFile]; the model's file system accepts every directory creation
    and every write. *)
Definition WriteFile (w : world) (fileName : string) (text : bytes)
  : world * list event * option go_error :=
  let folder := filepath.Dir fileName in
  let ev := if String.eqb folder "" then [] else [EvMkdirAll folder] in
  (mkWorld (<[fileName := text]> (files w)), ev ++ [EvWriteFile fileName text], None).

(** The options [WriteOutput] reads ([Check] is a Rocq command name, hence
    [Check_]). *)
Record CommandOptions := mkOptions { Embed : bool; Check_ : bool }.

(** The body of the loop of [WriteOutput] for one output file, after
    rendering. *)
Definition write_unit (opts : CommandOptions) (w : world) (fileName : string)
           (text : bytes) : world * list event * option go_error :=
  let '(ev0, text) :=
    if Embed opts && negb (String.eqb fileName "")
    then EmbedContents_io w fileName text else ([], text) in
  if String.eqb fileName "" then (w, ev0 ++ [EvStdout text], None)
  else if Check_ opts then
    let '(ev1, r) := CheckFile w text fileName in (w, ev0 ++ ev1, r)
  else
    let '(w', ev1, r) := WriteFile w fileName text in
    (w', ev0 ++ ev1,
     option_map (Wrapped ("failed to write Output file " ++ fileName ++ ": ")) r).

(** The open error [CheckFile] returns for a missing file. *)
Definition open_check_error (path : string) : go_error :=
  Wrapped ("failed to open file " ++ path ++ " for checking: ")%string
          (PathError "open" path ENOENT).

(** ** Package specs and [GetSpecs] *)

(** A loaded package, by its identity. *)
Record Package := mkPackage { pkg_id : string }.

Record PackageSpec := mkSpec {
  Dir : string;
  ImportPath : string;
  IsWildcard : bool;
  IsLocal : bool;
  OutputFile : string;
  Pkg : option Package
}.

Record FileInfo := mkFileInfo { Name : string; IsDir : bool }.

(** Directory listings of the file system, by cleaned path ([None]: not a
    readable directory). *)
Definition dir_tree := string -> option (list FileInfo).

Fixpoint insert_by_name (f : FileInfo) (l : list FileInfo) : list FileInfo :=
  match l with
  | [] => [f]
  | g :: l' => if String.ltb (Name g) (Name f) then g :: insert_by_name f l' else f :: l
  end.

Definition sort_by_name (l : list FileInfo) : list FileInfo :=
  fold_right insert_by_name [] l.

(** [ioutil.ReadDir]: the entries sorted by name. *)
Definition ReadDir (fs : dir_tree) (dirname : string) : option (list FileInfo) :=
  option_map sort_by_name (fs (filepath.Clean dirname)).

Definition ignoredDirs : list string := [".git"].

Definition IsIgnoredDir (dirname : string) : bool :=
  existsb (fun ignored => String.eqb ignored dirname) ignoredDirs.

Definition cwdPathPrefix : string := "./".
Definition parentPathPrefix : string := "../".

Definition IsLocalPath (path : string) : bool :=
  gostrings.HasPrefix path cwdPathPrefix || gostrings.HasPrefix path parentPathPrefix
  || filepath.IsAbs path.

Definition new_spec (dir importPath : string) (isWildcard isLocal : bool) : PackageSpec :=
  mkSpec dir importPath isWildcard isLocal "" None.

(** The sub-directories of [p] pushed on the queue, in listing order. *)
Fixpoint sub_paths (p : string) (files : list FileInfo) : list string :=
  match files with
  | [] => []
  | f :: files' =>
    if IsIgnoredDir (Name f) then sub_paths p files'
    else if IsDir f then
      let subPath := filepath.Join [p; Name f] in
      let subPath := if IsLocalPath subPath then subPath
                     else (cwdPathPrefix ++ subPath)%string in
      subPath :: sub_paths p files'
    else sub_paths p files'
  end.

(** The breadth-first walk of [GetSpecs] over its queue.  The Go loop runs
    until the queue is empty; [fuel] bounds the number of rounds and
    [None] means it ran out. *)
Fixpoint walk (fs : dir_tree) (fuel : nat) (queue : list string) : option (list PackageSpec) :=
  match fuel with
  | O => None
  | S fuel' =>
    match queue with
    | [] => Some []
    | p :: queue' =>
      match ReadDir fs p with
      | None => walk fs fuel' queue'
      | Some files =>
        let subs := sub_paths p files in
        option_map (fun rest => map (fun s => new_spec s s true true) subs ++ rest)
                   (walk fs fuel' (queue' ++ subs))
      end
    end
  end.

Definition expand_path (fs : dir_tree) (fuel : nat) (path : string) : option (list PackageSpec) :=
  let path := filepath.FromSlash path in
  if negb (gostrings.HasSuffix path (String filepath.Separator "...")) then
    let isLocal := IsLocalPath path in
    let dir := if isLocal then path else "." in
    Some [new_spec dir path false isLocal]
  else
    let trimmedPath := substring 0 (String.length path - 3) path in
    if negb (IsLocalPath trimmedPath) then Some [new_spec "." path false false]
    else option_map (fun rest => new_spec trimmedPath trimmedPath true true :: rest)
                    (walk fs fuel [trimmedPath]).

Fixpoint GetSpecs (fs : dir_tree) (fuel : nat) (paths : list string) : option (list PackageSpec) :=
  match paths with
  | [] => Some []
  | path :: paths' =>
    match expand_path fs fuel path, GetSpecs fs fuel paths' with
    | Some a, Some b => Some (a ++ b)
    | _, _ => None
    end
  end.

(** ** The grouping and the loop of [WriteOutput] *)

(** [filePkgs]: the packages of the specs, by output file. *)
Definition group_specs (specs : list PackageSpec) : gmap string (list Package) :=
  fold_left (fun filePkgs spec =>
               match Pkg spec with
               | None => filePkgs
               | Some p =>
                 <[OutputFile spec := default [] (filePkgs !! OutputFile spec) ++ [p]]> filePkgs
               end) specs ∅.

Section WriteOutput.
(** [out.File(lang.NewFile(header, footer, pkgs))]. *)
Variable render : list Package -> bytes + go_error.

Fixpoint write_units (opts : CommandOptions) (w : world)
         (units : list (string * list Package)) : world * list event * option go_error :=
  match units with
  | [] => (w, [], None)
  | (fileName, pkgs) :: units' =>
    match render pkgs with
    | inr err => (w, [], Some err)
    | inl text =>
      let '(w1, ev1, r) := write_unit opts w fileName text in
      match r with
      | Some err => (w1, ev1, Some err)
      | None => let '(w2, ev2, r2) := write_units opts w1 units' in (w2, ev1 ++ ev2, r2)
      end
    end
  end.

(** The loop [for fileName, pkgs := range filePkgs] of [WriteOutput]:
    Go leaves the order of a map range unspecified, so a run may visit
    the entries in any order, and [out] is any outcome of one. *)
Definition WriteOutput_runs (opts : CommandOptions) (specs : list PackageSpec)
           (w : world) (out : world * list event * option go_error) : Prop :=
  exists order, order ≡ₚ map_to_list (group_specs specs)
                /\ write_units opts w order = out.
End WriteOutput.

(** ** Definitions used by the proofs *)


(** The invariant of the [goflags] parse: the [Tags] value is still the
    default [""], or the flag has been set. *)
Definition tags_inv (f : flag.FlagSet) : Prop :=
  flag.tags f = EmptyString \/ In "Tags"%string (flag.actual f).

(** The entries of a listing that [GetSpecs] descends into. *)
Definition subdirs (files : list FileInfo) : list FileInfo :=
  List.filter (fun f => IsDir f && negb (IsIgnoredDir (Name f))) files.

(** The queue entry [GetSpecs] builds for the sub-directory [f] of [p]. *)
Definition sub_path (p : string) (f : FileInfo) : string :=
  let subPath := filepath.Join [p; Name f] in
  if IsLocalPath subPath then subPath else (cwdPathPrefix ++ subPath)%string.

(** The packages of the specs with output file [d], in the order of the specs. *)
Definition dest_pkgs (d : string) (specs : list PackageSpec) : list Package :=
  flat_map (fun s => if String.eqb (OutputFile s) d
                     then match Pkg s with Some p => [p] | None => [] end else []) specs.

(** Inputs of the scenarios below. *)
Definition c5_specs : list PackageSpec :=
  [mkSpec "./b" "./b" false true "b.md" (Some (mkPackage "b"));
   mkSpec "./c" "./c" false true "b.md" None;
   mkSpec "./a" "./a" false true "a.md" (Some (mkPackage "a"))].

Definition c5_render (pkgs : list Package) : bytes + go_error := inl (lit "doc").

Definition c6_fs (d : string) : option (list FileInfo) :=
  if String.eqb d "pkgB" then
    Some [mkFileInfo "inner" true; mkFileInfo "doc.go" false; mkFileInfo ".git" true]
  else if String.eqb d "pkgB/inner" then Some [mkFileInfo "inner.go" false]
  else None.

(** ** The remaining steps of the command *)

(** [ioutil.ReadFile]: the contents, or the [*PathError] of a missing file. *)
Definition ioutil_ReadFile (w : world) (name : string) : list event * (bytes + go_error) :=
  ([EvReadFile name],
   match files w !! name with
   | Some b => inl b
   | None => inr (PathError "open" name ENOENT)
   end).

(** The fields of [CommandOptions] read by [ResolveOverrides]. *)
Record ResolveOptions := mkResolveOptions {
  Format : string;
  TemplateOverrides : gmap string string;
  TemplateFileOverrides : gmap string string
}.

(** The formats of the [format] package the command selects from. *)
Inductive Format_ := GitHubFlavoredMarkdown | AzureDevOpsMarkdown | PlainMarkdown.

(** The renderer options [ResolveOverrides] builds. *)
Inductive RendererOption :=
| WithTemplateOverride (name s : string)
| WithFormat (f : Format_).

(** The [switch opts.Format] of [ResolveOverrides]; [None] is its [default]. *)
Definition format_of (f : string) : option Format_ :=
  if String.eqb f "github" then Some GitHubFlavoredMarkdown
  else if String.eqb f "azure-devops" then Some AzureDevOpsMarkdown
  else if String.eqb f "plain" then Some PlainMarkdown
  else None.

(** The loop over [opts.TemplateFileOverrides], visiting its entries in the
    order [entries]. *)
Fixpoint file_overrides (w : world) (content : gmap string string)
         (entries : list (string * string)) : list event * (list RendererOption + go_error) :=
  match entries with
  | [] => ([], inl [])
  | (name, f) :: entries' =>
    match content !! name with
    | Some _ => file_overrides w content entries'
    | None =>
      let '(ev, r) := ioutil_ReadFile w f in
      match r with
      | inr err =>
          (ev, inr (Wrapped ("gomarkdoc: couldn't resolve template for " ++ name ++ ": ")%string err))
      | inl b =>
          let '(ev', r') := file_overrides w content entries' in
          (ev ++ ev', match r' with
                      | inl os => inl (WithTemplateOverride name (string_of_list_ascii b) :: os)
                      | inr err => inr err
                      end)
      end
    end
  end.

(** [ResolveOverrides] visiting [opts.TemplateOverrides] in the order
    [content_entries] and [opts.TemplateFileOverrides] in the order
    [file_entries]. *)
Definition ResolveOverrides_with (w : world) (opts : ResolveOptions)
           (content_entries file_entries : list (string * string))
  : list event * (list RendererOption + go_error) :=
  let overrides := map (fun '(name, s) => WithTemplateOverride name s) content_entries in
  let '(ev, r) := file_overrides w (TemplateOverrides opts) file_entries in
  (ev, match r with
       | inr err => inr err
       | inl fos =>
         match format_of (Format opts) with
         | None => inr (ErrorString ("gomarkdoc: invalid Format: " ++ Format opts)%string)
         | Some f => inl (overrides ++ fos ++ [WithFormat f])
         end
       end).

(** [spec] with its [OutputFile] field set, and with its [Pkg] field set
    (the assignments [spec.OutputFile = ...] and [spec.Pkg = pkg]). *)
Definition set_OutputFile (spec : PackageSpec) (o : string) : PackageSpec :=
  mkSpec (Dir spec) (ImportPath spec) (IsWildcard spec) (IsLocal spec) o (Pkg spec).

Definition set_Pkg (spec : PackageSpec) (p : option Package) : PackageSpec :=
  mkSpec (Dir spec) (ImportPath spec) (IsWildcard spec) (IsLocal spec) (OutputFile spec) p.

Section ResolveOutput.
(** [outputTmpl.Execute] on one spec: the text it writes, or its error. *)
Variable Execute : PackageSpec -> string + go_error.

(** [ResolveOutput], returning the updated specs (Go updates them in
    place; on an error the command stops). *)
Fixpoint ResolveOutput (specs : list PackageSpec) : list PackageSpec + go_error :=
  match specs with
  | [] => inl []
  | spec :: specs' =>
    match Execute spec with
    | inr err => inr err
    | inl outputStr =>
      let spec' := set_OutputFile spec
                     (if String.eqb outputStr "" then "" else filepath.Clean outputStr) in
      match ResolveOutput specs' with
      | inr err => inr err
      | inl rest => inl (spec' :: rest)
      end
    end
  end.
End ResolveOutput.

Section LoadPackages.
(** [GetBuildPackage] (the [go/build] import of a path with the build tags)
    and [lang.NewPackageFromBuild] with the command's package options. *)
Variable BuildPackage : Type.
Variable GetBuildPackage : string -> list string -> BuildPackage + go_error.
Variable NewPackageFromBuild : BuildPackage -> Package + go_error.

Fixpoint LoadPackages (tags : list string) (specs : list PackageSpec)
  : list PackageSpec + go_error :=
  match specs with
  | [] => inl []
  | spec :: specs' =>
    match GetBuildPackage (ImportPath spec) tags with
    | inr err =>
      if IsWildcard spec then
        match LoadPackages tags specs' with
        | inr e => inr e
        | inl rest => inl (spec :: rest)
        end
      else inr err
    | inl buildPkg =>
      match NewPackageFromBuild buildPkg with
      | inr err => inr err
      | inl pkg =>
        match LoadPackages tags specs' with
        | inr e => inr e
        | inl rest => inl (set_Pkg spec (Some pkg) :: rest)
        end
      end
    end
  end.
End LoadPackages.

(** [strings.Join(elems, sep)] on byte lists, for the proofs about [Split]. *)
Fixpoint join_bytes (sep : ascii) (elems : list bytes) : bytes :=
  match elems with
  | [] => []
  | [e] => e
  | e :: es => e ++ sep :: join_bytes sep es
  end.

(** Inputs of the scenarios of the remaining steps. *)
Definition x_exec (s : PackageSpec) : string + go_error :=
  if String.eqb (ImportPath s) "./c" then inl "./c/../c//README.md" else inl "".

Definition x_specs : list PackageSpec :=
  [new_spec "." "github.com/a/b" false false; new_spec "./c" "./c" false true].

Definition x_resolve_opts : ResolveOptions :=
  mkResolveOptions "github" {[ "a" := "x" ]}
                   {[ "a" := "a.tmpl"; "b" := "b.tmpl" ]}.

Definition x_world : world := mkWorld {[ "b.tmpl" := lit "B"; "README.md" := lit "doc" ]}.

Definition x_GetBuildPackage (path : string) (tags : list string) : string + go_error :=
  if String.eqb path "./a" then inl path else inr (ErrorString "no buildable Go source files").

Definition x_NewPackageFromBuild (b : string) : Package + go_error := inl (mkPackage b).

Definition x_load_specs : list PackageSpec :=
  [new_spec "./w" "./w" true true; new_spec "./a" "./a" false true].

Definition x_units : list (string * list Package) :=
  [(""%string, [mkPackage "b"]); ("README.md"%string, [mkPackage "a"])].

Example clean_ex1 : filepath.Clean "./pkgB//inner" = "pkgB/inner". Proof. reflexivity. Qed.
Example clean_ex2 : filepath.Clean "a/b/../c/./d/" = "a/c/d". Proof. reflexivity. Qed.
Example clean_ex3 : filepath.Clean "/../a//" = "/a". Proof. reflexivity. Qed.
Example clean_ex4 : filepath.Clean "a/../.." = "..". Proof. reflexivity. Qed.
Example dir_ex : filepath.Dir "docs/api/README.md" = "docs/api". Proof. reflexivity. Qed.
Example join_ex : filepath.Join ["./pkgB/"; "inner"] = "pkgB/inner". Proof. reflexivity. Qed.
Example fields_ex1 : gostrings.Fields "  -a=1   -b " = ["-a=1"; "-b"]. Proof. reflexivity. Qed.
Example fields_ex2 : gostrings.Fields (String "194" (String "160" "a b")) = ["a"; "b"].
Proof. reflexivity. Qed.
Example split_ex : gostrings.Split ",a," "," = [""; "a"; ""]. Proof. reflexivity. Qed.
Example tags_ex1 : DefaultTags (Some "--Tags a,b c") = ["a"; "b"]. Proof. reflexivity. Qed.
Example tags_ex2 : DefaultTags (Some "-Tags") = []. Proof. reflexivity. Qed.
Example tags_ex3 : DefaultTags (Some "-Tags=x -Tags=y,z") = ["y"; "z"]. Proof. reflexivity. Qed.
Example fnv_ex0 : fnv.Sum (fnv.hash128 []) = [108;98;39;46;7;187;1;66;98;184;33;117;98;149;197;141]%Z.
Proof. reflexivity. Qed.
Example fnv_ex1 : fnv.hash128 (lit "a") = 0xd228cb69101a8caf78912b704e4a141e%Z.
Proof. vm_compute. reflexivity. Qed.

Example ec2 : EmbedContents (Some (lit "a" ++ [nl] ++ lit "<!-- gomarkdoc:Embed -->" ++ [nl] ++ lit "b")) (lit "doc")
  = lit "a" ++ [nl] ++ embed_text (lit "doc") ++ [nl] ++ lit "b".
Proof. vm_compute. reflexivity. Qed.

Example ec3 : EmbedContents (Some (embed_text (lit "doc"))) (lit "doc") = embed_text (lit "doc").
Proof. vm_compute. reflexivity. Qed.

(** * Proofs: merge *)

Lemma bol_after_app b x y : bol_after b (x ++ y) = bol_after (bol_after b x) y.
Proof. revert b; induction x as [|c x IH]; intros b; simpl; auto. Qed.

Lemma bol_after_nl b x : bol_after b (x ++ [nl]) = true.
Proof. rewrite bol_after_app. reflexivity. Qed.

Lemma strip_prefix_app p r : strip_prefix p (p ++ r) = Some r.
Proof. induction p as [|c p IH]; simpl; auto. rewrite Ascii.eqb_refl. exact IH. Qed.

Lemma strip_prefix_some p s r : strip_prefix p s = Some r -> s = p ++ r.
Proof.
  revert s; induction p as [|c p IH]; intros s H; simpl in *.
  - congruence.
  - destruct s as [|d s]; [discriminate|].
    destruct (Ascii.eqb c d) eqn:E; [|discriminate].
    apply Ascii.eqb_eq in E; subst. f_equal. auto.
Qed.

Lemma span_spec p s a r :
  span p s = (a, r) -> s = a ++ r /\ Forall (fun c => p c = true) a.
Proof.
  revert a r; induction s as [|c s IH]; intros a r H; simpl in H.
  - inversion H; subst; auto.
  - destruct (p c) eqn:E.
    + destruct (span p s) as [a' r'] eqn:Hs. inversion H; subst.
      destruct (IH _ _ eq_refl) as [-> Hf]. simpl; auto.
    + inversion H; subst; auto.
Qed.

Lemma lazy_space_eol_spec s a r :
  lazy_space_eol s = Some (a, r) -> s = a ++ r /\ all_ws a.
Proof.
  revert a r; induction s as [|c s IH]; intros a r H; simpl in H.
  - inversion H; subst; split; [reflexivity | constructor].
  - destruct (Ascii.eqb c nl).
    + inversion H; subst; split; [reflexivity | constructor].
    + destruct (is_go_space c) eqn:E; [|discriminate].
      destruct (lazy_space_eol s) as [[a' r']|] eqn:Hs; [|discriminate].
      inversion H; subst. destruct (IH _ _ eq_refl) as [-> Hf].
      split; [reflexivity | constructor; auto].
Qed.

Lemma lazy_space_eol_at_eol q : at_eol q -> lazy_space_eol q = Some ([], q).
Proof. intros [-> | [q' ->]]; reflexivity. Qed.

Lemma match_comment_shape key s m r :
  match_comment key s = Some (m, r) ->
  exists w1 w2, all_ws w1 /\ all_ws w2 /\
    m = lit "<!--" ++ w1 ++ key ++ w2 ++ lit "-->" /\ s = m ++ r.
Proof.
  unfold match_comment, match_lit.
  destruct (strip_prefix (lit "<!--") s) as [s1|] eqn:H1; [|discriminate].
  destruct (span is_go_space s1) as [w1 s2] eqn:H2.
  destruct (strip_prefix key s2) as [s3|] eqn:H3; [|discriminate].
  destruct (span is_go_space s3) as [w2 s4] eqn:H4.
  destruct (strip_prefix (lit "-->") s4) as [s5|] eqn:H5; [|discriminate].
  intros H; inversion H; subst; clear H.
  apply strip_prefix_some in H1, H3, H5.
  apply span_spec in H2 as [-> Hw1]. apply span_spec in H4 as [-> Hw2].
  subst. exists w1, w2. repeat split; auto.
  rewrite !app_assoc. reflexivity.
Qed.

Lemma standalone_shape bol s m r :
  embedStandalone_at bol s = Some (m, r) ->
  bol = true /\
  exists sp w1 w2 y, all_blank sp /\ all_ws w1 /\ all_ws w2 /\
    s = sp ++ lit "<!--" ++ w1 ++ kw ++ w2 ++ lit "-->" ++ y.
Proof.
  unfold embedStandalone_at, match_line_start.
  destruct bol; [|discriminate].
  destruct (span is_blank s) as [sp s1] eqn:H1.
  destruct (match_comment kw s1) as [[c s2]|] eqn:H2; [|discriminate].
  destruct (lazy_space_eol s2) as [[w s3]|] eqn:H3; [|discriminate].
  intros _. split; [reflexivity|].
  apply span_spec in H1 as [-> Hsp].
  apply match_comment_shape in H2 as (w1 & w2 & Hw1 & Hw2 & -> & ->).
  exists sp, w1, w2, s2. repeat split; auto.
  rewrite <- !app_assoc. reflexivity.
Qed.

Lemma start_shape bol s m r :
  embedStart_at bol s = Some (m, r) ->
  bol = true /\
  exists sp w1 z, all_blank sp /\ all_ws w1 /\ s = sp ++ lit "<!--" ++ w1 ++ kw ++ z.
Proof.
  unfold embedStart_at, match_line_start.
  destruct bol; [|discriminate].
  destruct (span is_blank s) as [sp s1] eqn:H1.
  destruct (match_comment (kw ++ lit ":start") s1) as [[c s2]|] eqn:H2; [|discriminate].
  intros _. split; [reflexivity|].
  apply span_spec in H1 as [-> Hsp].
  apply match_comment_shape in H2 as (w1 & w2 & Hw1 & Hw2 & -> & ->).
  exists sp, w1, (lit ":start" ++ w2 ++ lit "-->" ++ s2). repeat split; auto.
  rewrite <- !app_assoc. reflexivity.
Qed.

Lemma end_shape s m r :
  embedEnd_at s = Some (m, r) ->
  exists w1 z, all_ws w1 /\ s = lit "<!--" ++ w1 ++ kw ++ z.
Proof.
  unfold embedEnd_at.
  destruct (match_comment (kw ++ lit ":end") s) as [[c s1]|] eqn:H2; [|discriminate].
  intros _.
  apply match_comment_shape in H2 as (w1 & w2 & Hw1 & Hw2 & -> & ->).
  exists w1, (lit ":end" ++ w2 ++ lit "-->" ++ s1). split; auto.
  rewrite <- !app_assoc. reflexivity.
Qed.

(** ** The scan of [replace_scan] over a concatenation *)
Section ScanLemmas.
Variable matcher : bool -> bytes -> option (bytes * bytes).
Variable repl : bytes.

Lemma scan_drop X Y bol :
  replace_scan matcher repl bol (length X) (X ++ Y)
  = replace_scan matcher repl (bol_after bol X) 0 Y.
Proof. revert bol; induction X as [|c X IH]; intros bol; simpl; auto. Qed.

(** A match covering exactly [M] is replaced and the scan resumes after it. *)
Lemma scan_hit M R Y bol o n :
  matcher bol (M ++ Y) = Some (M, R) -> M <> [] ->
  replace_scan matcher repl (bol_after bol M) 0 Y = (o, n) ->
  replace_scan matcher repl bol 0 (M ++ Y) = (repl ++ o, S n).
Proof.
  intros Hm HM Hs. destruct M as [|c M]; [congruence|].
  simpl. simpl in Hm. rewrite Hm. simpl. rewrite Nat.sub_0_r, scan_drop.
  simpl in Hs. rewrite Hs. reflexivity.
Qed.

(** No match starts inside [A]: [A] is copied unchanged. *)
Lemma scan_skip A Y bol o n :
  (forall a1 a2, A = a1 ++ a2 -> a2 <> [] ->
     matcher (bol_after bol a1) (a2 ++ Y) = None) ->
  replace_scan matcher repl (bol_after bol A) 0 Y = (o, n) ->
  replace_scan matcher repl bol 0 (A ++ Y) = (A ++ o, n).
Proof.
  revert bol; induction A as [|c A IH]; intros bol Hno Hs; simpl in *; auto.
  pose proof (Hno [] (c :: A) eq_refl ltac:(discriminate)) as H0.
  simpl in H0. rewrite H0.
  rewrite (IH (Ascii.eqb c nl)); auto.
  intros a1 a2 -> Ha2. apply (Hno (c :: a1) a2); auto.
Qed.

Lemma scan_kw_free Q bol :
  needs_kw matcher -> kw_free Q -> replace_scan matcher repl bol 0 Q = (Q, 0).
Proof.
  intros Hk HQ. rewrite <- (app_nil_r Q) at 1.
  rewrite (scan_skip Q [] bol [] 0); [rewrite app_nil_r; reflexivity | |].
  - intros a1 a2 -> Ha2. rewrite app_nil_r.
    destruct (matcher (bol_after bol a1) a2) as [[m r]|] eqn:E; [|reflexivity].
    destruct (Hk _ _ _ _ E) as (x & z & Ha).
    exfalso. apply (HQ (a1 ++ x) z). rewrite Ha, <- app_assoc. reflexivity.
  - destruct (bol_after bol Q); reflexivity.
Qed.
End ScanLemmas.

(** ** Occurrences of the marker keyword *)

Lemma lt_not_in_kw : ~ In "<"%char kw. Proof. not_in_lit. Qed.
Lemma gt_not_in_kw : ~ In ">"%char kw. Proof. not_in_lit. Qed.
Lemma nl_not_in_kw : ~ In nl kw. Proof. not_in_lit. Qed.

(** An occurrence of [p] in [A ++ c :: B], [c] not in [p], lies in [A] or in [B]. *)
Lemma occ_sep (p : bytes) c x z A B :
  ~ In c p -> x ++ p ++ z = A ++ c :: B ->
  (exists y, A = x ++ p ++ y /\ z = y ++ c :: B) \/
  (exists x', x = A ++ c :: x' /\ B = x' ++ p ++ z).
Proof.
  intros Hc H. apply app_eq_app in H as [l [[H1 H2] | [H1 H2]]].
  - destruct l as [|d l].
    + rewrite app_nil_r in H1. subst x. destruct p as [|d p].
      * left. exists []. simpl in *. rewrite app_nil_r. auto.
      * simpl in H2. inversion H2; subst. exfalso. apply Hc. left. reflexivity.
    + simpl in H2. inversion H2; subst. right. exists l. auto.
  - apply app_eq_app in H2 as [m [[H3 H4] | [H3 H4]]].
    + destruct m as [|d m].
      * rewrite app_nil_r in H3. subst. left. exists []. rewrite app_nil_r. auto.
      * simpl in H4. inversion H4; subst. exfalso. apply Hc.
        apply in_or_app. right. left. reflexivity.
    + subst. left. exists m. auto.
Qed.

Lemma kw_free_app_l x y : kw_free (x ++ y) -> kw_free x.
Proof. intros H a b ->. apply (H a (b ++ y)). rewrite <- !app_assoc. reflexivity. Qed.

Lemma kw_free_app_r x y : kw_free (x ++ y) -> kw_free y.
Proof. intros H a b ->. apply (H (x ++ a) b). rewrite <- !app_assoc. reflexivity. Qed.

Lemma kw_free_sep c A B : ~ In c kw -> kw_free A -> kw_free B -> kw_free (A ++ c :: B).
Proof.
  intros Hc HA HB x z H. symmetry in H.
  destruct (occ_sep kw c x z A B Hc H) as [(y & H1 & _) | (x' & _ & H2)].
  - exact (HA x y H1).
  - exact (HB x' z H2).
Qed.

Lemma kw_free_nil : kw_free [].
Proof. intros x z H. destruct x; discriminate. Qed.

Lemma kw_free_nls T : kw_free T -> kw_free ([nl; nl] ++ T ++ [nl; nl]).
Proof.
  intros HT. simpl.
  apply (kw_free_sep nl []); [exact nl_not_in_kw | exact kw_free_nil |].
  apply (kw_free_sep nl []); [exact nl_not_in_kw | exact kw_free_nil |].
  apply (kw_free_sep nl T); [exact nl_not_in_kw | exact HT |].
  apply (kw_free_sep nl []); [exact nl_not_in_kw | exact kw_free_nil | exact kw_free_nil].
Qed.

(** Where a match of either pattern may start, given the bytes after [A]
    begin with ['<'] and no keyword inside [A] can be the keyword of the
    match: only at the start of the run of spaces directly before the
    comment. *)
Lemma prefix_before_marker_gen A Y' sp w z :
  (forall x m, A = x ++ kw ++ m -> forall Y, z = m ++ Y -> False) ->
  all_blank sp -> all_ws w ->
  A ++ "<"%char :: Y' = sp ++ lit "<!--" ++ w ++ kw ++ z -> A = sp.
Proof.
  intros HA Hsp Hw H. unfold all_blank, all_ws in *.
  assert (H' : A ++ "<"%char :: Y' = (sp ++ lit "<!--" ++ w) ++ (kw ++ z))
    by (rewrite H, <- !app_assoc; reflexivity).
  clear H. apply app_eq_app in H' as [l [[H1 H2] | [H1 H2]]].
  - exfalso. apply app_eq_app in H2 as [m [[H3 H4] | [H3 H4]]].
    + destruct m as [|d m].
      * rewrite app_nil_r in H3. subst. apply (HA (sp ++ lit "<!--" ++ w) [])
          with (Y := z); [|reflexivity].
        rewrite app_nil_r, <- !app_assoc. reflexivity.
      * simpl in H4. inversion H4; subst. apply lt_not_in_kw.
        rewrite H3. apply in_or_app. right. left. reflexivity.
    + subst. apply (HA (sp ++ lit "<!--" ++ w) m eq_refl ("<"%char :: Y')).
      reflexivity.
  - destruct l as [|d l]; [simpl in H2; discriminate H2|].
    simpl in H2. injection H2 as Hd HY. subst d.
    apply app_eq_app in H1 as [n [[H3 H4] | [H3 H4]]].
    + destruct n as [|d n]; [rewrite app_nil_r in H3; congruence|].
      exfalso. simpl in H4. injection H4 as Hd H5. subst d.
      rewrite List.Forall_forall in Hsp. specialize (Hsp "<"%char).
      rewrite H3 in Hsp. assert (In "<"%char (A ++ "<"%char :: n)) as Hi
        by (apply in_or_app; right; left; reflexivity).
      specialize (Hsp Hi). discriminate Hsp.
    + destruct n as [|d n]; [rewrite app_nil_r in H3; congruence|].
      exfalso. simpl in H4. injection H4 as Hd H5. subst d.
      assert (Hi : In "<"%char (n ++ "<"%char :: l))
        by (apply in_or_app; right; left; reflexivity).
      rewrite <- H5 in Hi. simpl in Hi.
      destruct Hi as [Hi|[Hi|[Hi|Hi]]]; try discriminate Hi.
      rewrite List.Forall_forall in Hw. specialize (Hw _ Hi). discriminate Hw.
Qed.

Lemma prefix_before_marker A Y' sp w z :
  kw_free A -> all_blank sp -> all_ws w ->
  A ++ "<"%char :: Y' = sp ++ lit "<!--" ++ w ++ kw ++ z -> A = sp.
Proof.
  intros HA. apply prefix_before_marker_gen. intros x m Hx. exfalso.
  exact (HA x m Hx).
Qed.

Lemma embed_text_markers T :
  embed_text T = start_marker ++ ([nl; nl] ++ T ++ [nl; nl]) ++ end_marker.
Proof. unfold embed_text. rewrite <- !app_assoc. reflexivity. Qed.

Lemma tails_after_eq p s :
  tails_after p s =
  (match strip_prefix p s with Some z => [z] | None => [] end) ++
  (match s with [] => [] | _ :: s' => tails_after p s' end).
Proof. destruct s; reflexivity. Qed.

Lemma tails_after_complete p x z s : s = x ++ p ++ z -> In z (tails_after p s).
Proof.
  revert s; induction x as [|c x IH]; intros s ->; rewrite tails_after_eq; simpl.
  - rewrite strip_prefix_app. left. reflexivity.
  - apply in_or_app. right. apply IH. reflexivity.
Qed.

Lemma colon_after_concrete s :
  Forall (fun z => exists z', z = ":"%char :: z') (tails_after kw s) -> colon_after s.
Proof.
  intros H x z Hs. rewrite List.Forall_forall in H.
  apply H, (tails_after_complete kw x z s Hs).
Qed.

Lemma colon_after_kw_free s : kw_free s -> colon_after s.
Proof. intros H x z Hs. exfalso. exact (H x z Hs). Qed.

Lemma colon_after_sep c A B :
  ~ In c kw -> colon_after A -> colon_after B -> colon_after (A ++ c :: B).
Proof.
  intros Hc HA HB x z H. symmetry in H.
  destruct (occ_sep kw c x z A B Hc H) as [(y & H1 & H2) | (x' & _ & H2)].
  - destruct (HA x y H1) as [y' ->]. subst z. eexists. reflexivity.
  - exact (HB x' z H2).
Qed.

Lemma ends_line_nl P a1 a2 :
  ends_line P -> P = a1 ++ a2 -> a2 <> [] -> In nl a2.
Proof.
  intros [-> | [P' ->]] HP Ha2.
  - destruct a1, a2; try discriminate; congruence.
  - destruct (exists_last Ha2) as (a2' & c & ->).
    rewrite app_assoc in HP. apply app_inj_tail in HP as [_ ->].
    apply in_or_app. right. left. reflexivity.
Qed.

Lemma ends_line_bol P b : ends_line P -> bol_after b P = true \/ (P = [] /\ bol_after b P = b).
Proof. intros [-> | [P' ->]]; [right; auto | left; apply bol_after_nl]. Qed.

Lemma standalone_line_marker : line_marker_shape embedStandalone_at.
Proof.
  intros b s m r H. apply standalone_shape in H as [_ (sp & w1 & w2 & y & H1 & H2 & _ & ->)].
  exists sp, w1, (w2 ++ lit "-->" ++ y). auto.
Qed.

Lemma start_line_marker : line_marker_shape embedStart_at.
Proof.
  intros b s m r H. apply start_shape in H as [_ (sp & w1 & z & H1 & H2 & ->)].
  exists sp, w1, z. auto.
Qed.

Lemma line_marker_needs_kw matcher :
  line_marker_shape matcher -> needs_kw matcher.
Proof.
  intros H b s m r Hm. destruct (H b s m r Hm) as (sp & w & z & _ & _ & ->).
  exists (sp ++ lit "<!--" ++ w), z. rewrite <- !app_assoc. reflexivity.
Qed.

(** No match of a line pattern starts inside a keyword-free [P] that ends
    a line, when a ['<'] follows [P]. *)
Lemma skip_line_prefix matcher P Y' bol :
  line_marker_shape matcher -> kw_free P -> ends_line P ->
  forall a1 a2, P = a1 ++ a2 -> a2 <> [] ->
  matcher (bol_after bol a1) (a2 ++ "<"%char :: Y') = None.
Proof.
  intros Hsh HP Hend a1 a2 HPa Ha2.
  destruct (matcher (bol_after bol a1) (a2 ++ "<"%char :: Y')) as [[m r]|] eqn:E; [|reflexivity].
  exfalso. destruct (Hsh _ _ _ _ E) as (sp & w & z & Hsp & Hw & Hs).
  assert (Hfree : kw_free a2) by (subst P; exact (kw_free_app_r _ _ HP)).
  pose proof (prefix_before_marker a2 Y' sp w z Hfree Hsp Hw Hs) as ->.
  pose proof (ends_line_nl P a1 sp Hend HPa Ha2) as Hi.
  unfold all_blank in Hsp. rewrite List.Forall_forall in Hsp.
  specialize (Hsp nl Hi). discriminate Hsp.
Qed.

Lemma standalone_colon_none s bol r :
  colon_after s -> replace_scan embedStandalone_at r bol 0 s = (s, 0).
Proof.
  intros Hc. rewrite <- (app_nil_r s) at 1.
  rewrite (scan_skip embedStandalone_at r s [] bol [] 0);
    [rewrite app_nil_r; reflexivity | | destruct (bol_after bol s); reflexivity].
  intros a1 a2 Hs Ha2. rewrite app_nil_r.
  destruct (embedStandalone_at (bol_after bol a1) a2) as [[m r']|] eqn:E; [|reflexivity].
  exfalso. apply standalone_shape in E as [_ (sp & w1 & w2 & y & _ & _ & Hw2 & Ha)].
  subst a2.
  destruct (Hc (a1 ++ sp ++ lit "<!--" ++ w1) (w2 ++ lit "-->" ++ y)) as [z' Hz].
  { rewrite Hs, <- !app_assoc. reflexivity. }
  destruct w2 as [|c w2]; [discriminate Hz|].
  simpl in Hz. injection Hz as -> _.
  inversion Hw2; subst. discriminate.
Qed.

Lemma standalone_hit Q :
  at_eol Q -> embedStandalone_at true (standalone_marker ++ Q) = Some (standalone_marker, Q).
Proof. intros [-> | [q ->]]; reflexivity. Qed.

Lemma end_hit Q : at_eol Q -> embedEnd_at (end_marker ++ Q) = Some (end_marker, Q).
Proof. intros [-> | [q ->]]; reflexivity. Qed.

Lemma lazy_skip C Y a r :
  (forall c1 c2, C = c1 ++ c2 -> c2 <> [] -> embedEnd_at (c2 ++ Y) = None) ->
  lazy_until_end Y = Some (a, r) -> lazy_until_end (C ++ Y) = Some (C ++ a, r).
Proof.
  induction C as [|c C IH]; intros Hno HY; simpl; auto.
  pose proof (Hno [] (c :: C) eq_refl ltac:(discriminate)) as H0. simpl in H0.
  rewrite H0. rewrite IH; auto.
  intros c1 c2 -> Hc2. apply (Hno (c :: c1) c2); auto.
Qed.

Lemma lazy_until_end_hit s m : embedEnd_at s = Some m -> lazy_until_end s = Some m.
Proof. intros H. destruct s; cbn [lazy_until_end]; rewrite H; reflexivity. Qed.

Lemma start_hit C Q :
  kw_free C -> at_eol Q ->
  embedStart_at true (start_marker ++ C ++ end_marker ++ Q)
  = Some (start_marker ++ C ++ end_marker, Q).
Proof.
  intros HC HQ.
  assert (Hl : lazy_until_end (C ++ end_marker ++ Q) = Some (C ++ end_marker, Q)).
  { apply lazy_skip.
    - intros c1 c2 HCc Hc2.
      destruct (embedEnd_at (c2 ++ end_marker ++ Q)) as [[m r]|] eqn:E; [|reflexivity].
      exfalso. apply end_shape in E as (w1 & z & Hw1 & Hs).
      assert (Hfree : kw_free c2) by (subst C; exact (kw_free_app_r _ _ HC)).
      change (end_marker ++ Q) with ("<"%char :: (lit "!-- gomarkdoc:Embed:end -->" ++ Q)) in Hs.
      pose proof (prefix_before_marker c2 _ [] w1 z Hfree (List.Forall_nil _) Hw1 Hs).
      congruence.
    - apply lazy_until_end_hit, end_hit, HQ. }
  unfold embedStart_at, match_line_start.
  change (span is_blank (start_marker ++ C ++ end_marker ++ Q))
    with (@nil ascii, start_marker ++ C ++ end_marker ++ Q).
  cbv iota beta.
  change (match_comment (kw ++ lit ":start") (start_marker ++ C ++ end_marker ++ Q))
    with (Some (start_marker, C ++ end_marker ++ Q)).
  cbv iota beta. rewrite Hl. reflexivity.
Qed.

Lemma start_marker_split :
  start_marker = lit "<!-- gomarkdoc:Embed:start --" ++ [">"%char].
Proof. reflexivity. Qed.

Lemma end_marker_split :
  end_marker = "<"%char :: lit "!-- gomarkdoc:Embed:end --" ++ [">"%char].
Proof. reflexivity. Qed.

(** In a keyword-free text around a start/end region, every keyword
    occurrence is the one of a region marker, followed by [':']. *)
Lemma region_colon_after P C Q :
  kw_free P -> kw_free C -> kw_free Q -> ends_line P -> at_eol Q ->
  colon_after (P ++ start_marker ++ C ++ end_marker ++ Q).
Proof.
  intros HP HC HQ HPe HQe.
  assert (HS : colon_after (lit "<!-- gomarkdoc:Embed:start --"))
    by (apply colon_after_concrete; vm_compute; repeat constructor; eexists; reflexivity).
  assert (HE : colon_after (lit "!-- gomarkdoc:Embed:end --"))
    by (apply colon_after_concrete; vm_compute; repeat constructor; eexists; reflexivity).
  assert (HR : colon_after (start_marker ++ C ++ end_marker ++ Q)).
  { assert (Heq : start_marker ++ C ++ end_marker ++ Q =
      lit "<!-- gomarkdoc:Embed:start --" ++ ">"%char ::
      (C ++ "<"%char :: (lit "!-- gomarkdoc:Embed:end --" ++ ">"%char :: Q)))
      by (rewrite start_marker_split, end_marker_split, <- !app_assoc; reflexivity).
    rewrite Heq.
    apply colon_after_sep; [exact gt_not_in_kw | exact HS |].
    apply colon_after_sep; [exact lt_not_in_kw | apply colon_after_kw_free, HC |].
    apply colon_after_sep; [exact gt_not_in_kw | exact HE | apply colon_after_kw_free, HQ]. }
  destruct HPe as [-> | [P' ->]]; [exact HR|].
  rewrite <- app_assoc. simpl. apply colon_after_sep; [exact nl_not_in_kw | | exact HR].
  apply colon_after_kw_free. exact (kw_free_app_l _ _ HP).
Qed.

(** The start pattern replaces one region and leaves keyword-free text
    around it unchanged. *)
Lemma start_pass_region P C Q repl :
  kw_free P -> kw_free C -> kw_free Q -> ends_line P -> at_eol Q ->
  replace_all embedStart_at repl (P ++ start_marker ++ C ++ end_marker ++ Q)
  = (P ++ repl ++ Q, 1).
Proof.
  intros HP HC HQ HPe HQe. unfold replace_all.
  apply (scan_skip embedStart_at repl P _ true (repl ++ Q) 1).
  - change (start_marker ++ C ++ end_marker ++ Q)
      with ("<"%char :: (lit "!-- gomarkdoc:Embed:start -->" ++ C ++ end_marker ++ Q)).
    apply skip_line_prefix; auto. exact start_line_marker.
  - assert (Hb : bol_after true P = true)
      by (destruct (ends_line_bol P true HPe) as [H | [_ H]]; exact H).
    rewrite Hb, !app_assoc.
    apply (scan_hit embedStart_at repl _ Q Q true Q 0).
    + rewrite <- !app_assoc. apply start_hit; auto.
    + unfold start_marker. simpl. discriminate.
    + apply scan_kw_free; auto. apply line_marker_needs_kw, start_line_marker.
Qed.

Lemma merge_region P C Q T :
  kw_free P -> kw_free C -> kw_free Q -> ends_line P -> at_eol Q ->
  EmbedContents (Some (P ++ start_marker ++ C ++ end_marker ++ Q)) T
  = P ++ embed_text T ++ Q.
Proof.
  intros HP HC HQ HPe HQe. unfold EmbedContents.
  assert (H1 : replace_all embedStandalone_at (embed_text T) (P ++ start_marker ++ C ++ end_marker ++ Q)
               = (P ++ start_marker ++ C ++ end_marker ++ Q, 0))
    by (apply standalone_colon_none, region_colon_after; auto).
  rewrite H1, start_pass_region; auto.
Qed.

Lemma merge_standalone_line P Q T :
  kw_free P -> kw_free Q -> kw_free T -> ends_line P -> at_eol Q ->
  EmbedContents (Some (P ++ standalone_marker ++ Q)) T = P ++ embed_text T ++ Q.
Proof.
  intros HP HQ HT HPe HQe. unfold EmbedContents.
  assert (Hb : bol_after true P = true)
    by (destruct (ends_line_bol P true HPe) as [H | [_ H]]; exact H).
  assert (H1 : replace_all embedStandalone_at (embed_text T) (P ++ standalone_marker ++ Q)
               = (P ++ embed_text T ++ Q, 1)).
  { unfold replace_all.
    apply (scan_skip embedStandalone_at _ P _ true (embed_text T ++ Q) 1).
    - change (standalone_marker ++ Q)
        with ("<"%char :: (lit "!-- gomarkdoc:Embed -->" ++ Q)).
      apply skip_line_prefix; auto. exact standalone_line_marker.
    - rewrite Hb. apply (scan_hit embedStandalone_at _ _ Q Q true Q 0).
      + apply standalone_hit; auto.
      + unfold standalone_marker. simpl. discriminate.
      + apply scan_kw_free; auto. apply line_marker_needs_kw, standalone_line_marker. }
  assert (H2 : P ++ embed_text T ++ Q
               = P ++ start_marker ++ ([nl; nl] ++ T ++ [nl; nl]) ++ end_marker ++ Q)
    by (rewrite embed_text_markers, <- !app_assoc; reflexivity).
  pose proof (start_pass_region P ([nl; nl] ++ T ++ [nl; nl]) Q (embed_text T)
                HP (kw_free_nls T HT) HQ HPe HQe) as H3.
  rewrite <- H2 in H3. rewrite H1, H3. reflexivity.
Qed.

Lemma blocks_text_lt bs : bs <> [] -> exists Y, blocks_text bs = "<"%char :: Y.
Proof.
  destruct bs as [|[[|C] P] bs]; intros H; [congruence| |]; simpl; eexists; reflexivity.
Qed.

Lemma colon_after_suffix x y : colon_after (x ++ y) -> colon_after y.
Proof. intros H a z ->. apply (H (x ++ a) z). rewrite <- app_assoc. reflexivity. Qed.

Lemma standalone_tail_not_colon w2 y z' :
  all_ws w2 -> w2 ++ lit "-->" ++ y <> ":"%char :: z'.
Proof.
  intros Hw Hz. destruct w2 as [|c w2]; [discriminate Hz|].
  simpl in Hz. injection Hz as -> _. inversion Hw; subst. discriminate.
Qed.

Lemma standalone_colon_at s bol : colon_after s -> embedStandalone_at bol s = None.
Proof.
  intros Hc. destruct (embedStandalone_at bol s) as [[m r]|] eqn:E; [|reflexivity].
  exfalso. apply standalone_shape in E as [_ (sp & w1 & w2 & y & _ & _ & Hw2 & ->)].
  destruct (Hc (sp ++ lit "<!--" ++ w1) (w2 ++ lit "-->" ++ y)) as [z' Hz].
  { rewrite <- !app_assoc. reflexivity. }
  exact (standalone_tail_not_colon _ _ _ Hw2 Hz).
Qed.

(** The bytes between markers are skipped by either line pattern. *)
Lemma skip_sep matcher P bs bol :
  line_marker_shape matcher -> kw_free P -> (bs = [] \/ ends_line P) ->
  forall a1 a2, P = a1 ++ a2 -> a2 <> [] ->
  matcher (bol_after bol a1) (a2 ++ blocks_text bs) = None.
Proof.
  intros Hsh HP Hsep a1 a2 HPa Ha2. destruct bs as [|b bs].
  - simpl. rewrite app_nil_r.
    destruct (matcher (bol_after bol a1) a2) as [[m r]|] eqn:E; [|reflexivity].
    exfalso. destruct (line_marker_needs_kw _ Hsh _ _ _ _ E) as (x & z & Hx).
    apply (HP (a1 ++ x) z). rewrite HPa, Hx, <- app_assoc. reflexivity.
  - destruct Hsep as [Hsep|Hsep]; [discriminate Hsep|].
    destruct (blocks_text_lt (b :: bs) ltac:(discriminate)) as [Y ->].
    apply (skip_line_prefix matcher P); auto.
Qed.

Lemma sep_bol P (bs : list (marker * bytes)) b :
  (bs = [] \/ (P <> [] /\ ends_line P)) -> bs <> [] -> bol_after b P = true.
Proof.
  intros [-> | [HP [-> | [P' ->]]]] Hne; [congruence | congruence | apply bol_after_nl].
Qed.

Lemma at_eol_sep P bs :
  at_eol P -> (bs = [] \/ (P <> [] /\ ends_line P)) -> at_eol (P ++ blocks_text bs).
Proof.
  intros [-> | [q ->]] Hs.
  - destruct Hs as [-> | [H _]]; [left; reflexivity | congruence].
  - right. eexists. reflexivity.
Qed.

Lemma region_colon_block C P :
  kw_free C -> kw_free P -> at_eol P ->
  colon_after ((start_marker ++ C ++ end_marker) ++ P).
Proof.
  intros HC HP HPe. rewrite <- !app_assoc.
  exact (region_colon_after [] C P kw_free_nil HC HP (or_introl eq_refl) HPe).
Qed.

(** The standalone pass replaces every standalone marker line and leaves
    every region, and the text between markers, unchanged. *)
Lemma standalone_pass T bs bol :
  wf_blocks bs -> (bs <> [] -> bol = true) ->
  replace_scan embedStandalone_at (embed_text T) bol 0 (blocks_text bs)
  = (blocks_text (map (to_region T) bs), count_standalone bs).
Proof.
  revert bol; induction bs as [|[m P] bs IH]; intros bol Hwf Hb; [reflexivity|].
  simpl in Hwf. destruct Hwf as (Hm & HP & HPe & Hsep & Hwf).
  rewrite (Hb ltac:(discriminate)).
  assert (Hsep' : bs = [] \/ ends_line P) by (destruct Hsep as [H|[_ H]]; auto).
  destruct m as [|C].
  - change (blocks_text ((Standalone, P) :: bs))
      with (standalone_marker ++ (P ++ blocks_text bs)).
    assert (E : blocks_text (map (to_region T) ((Standalone, P) :: bs))
                = embed_text T ++ P ++ blocks_text (map (to_region T) bs))
      by (rewrite embed_text_markers; reflexivity).
    rewrite E. cbn [count_standalone].
    apply (scan_hit _ _ standalone_marker (P ++ blocks_text bs)).
    + apply standalone_hit, at_eol_sep; auto.
    + unfold standalone_marker. simpl. discriminate.
    + apply scan_skip.
      * intros a1 a2 HPa Ha2. apply (skip_sep _ P); auto. exact standalone_line_marker.
      * apply IH; auto. intros Hne. apply (sep_bol P bs); auto.
  - change (blocks_text ((Region C, P) :: bs))
      with ((start_marker ++ C ++ end_marker) ++ P ++ blocks_text bs).
    change (blocks_text (map (to_region T) ((Region C, P) :: bs)))
      with ((start_marker ++ C ++ end_marker) ++ P ++ blocks_text (map (to_region T) bs)).
    cbn [count_standalone]. rewrite !(app_assoc (start_marker ++ C ++ end_marker) P).
    simpl in Hm.
    pose proof (region_colon_block C P Hm HP HPe) as Hcol.
    apply scan_skip.
    + intros a1 a2 HA Ha2.
      assert (Hc2 : colon_after a2) by (rewrite HA in Hcol; exact (colon_after_suffix _ _ Hcol)).
      destruct Hsep as [-> | [HPn HPl]].
      * simpl. rewrite app_nil_r. apply standalone_colon_at, Hc2.
      * destruct bs as [|b bs']; [simpl; rewrite app_nil_r; apply standalone_colon_at, Hc2|].
        destruct (blocks_text_lt (b :: bs') ltac:(discriminate)) as [Y HY].
        rewrite HY.
        destruct (embedStandalone_at (bol_after true a1) (a2 ++ "<"%char :: Y))
          as [[m r]|] eqn:E; [|reflexivity].
        exfalso. apply standalone_shape in E as [_ (sp & w1 & w2 & y & Hsp & Hw1 & Hw2 & Hs)].
        assert (Ha2sp : a2 = sp).
        { apply (prefix_before_marker_gen a2 Y sp w1 (w2 ++ lit "-->" ++ y)); auto.
          intros x m' Hx Y0 Hz. destruct (Hc2 x m' Hx) as [z' ->].
          apply (standalone_tail_not_colon w2 y (z' ++ Y0) Hw2). rewrite Hz. reflexivity. }
        subst sp.
        assert (Hend : ends_line ((start_marker ++ C ++ end_marker) ++ P)).
        { destruct HPl as [-> | [P' ->]]; [congruence|].
          right. exists ((start_marker ++ C ++ end_marker) ++ P'). rewrite app_assoc. reflexivity. }
        pose proof (ends_line_nl _ a1 a2 Hend HA Ha2) as Hi.
        unfold all_blank in Hsp. rewrite List.Forall_forall in Hsp.
        specialize (Hsp nl Hi). discriminate Hsp.
    + apply IH; auto. intros Hne. rewrite bol_after_app. apply (sep_bol P bs); auto.
Qed.

Lemma wf_to_region T bs :
  kw_free T -> wf_blocks bs -> wf_blocks (map (to_region T) bs).
Proof.
  intros HT. induction bs as [|[m P] bs IH]; [auto|].
  intros (Hm & HP & HPe & Hsep & Hwf).
  assert (Hsep' : map (to_region T) bs = [] \/ (P <> [] /\ ends_line P))
    by (destruct Hsep as [-> | H]; auto).
  destruct m; simpl; repeat split; auto. apply kw_free_nls, HT.
Qed.

Lemma no_standalone_to_region T bs : no_standalone (map (to_region T) bs).
Proof.
  induction bs as [|[m P] bs IH]; constructor; auto. destruct m; simpl; discriminate.
Qed.

Lemma blocks_replaced_to_region T bs :
  blocks_replaced T (map (to_region T) bs) = blocks_replaced T bs.
Proof. induction bs as [|[m P] bs IH]; [reflexivity|]. destruct m; simpl; rewrite IH; reflexivity. Qed.

(** The start pass replaces every region, leaving the text between
    regions unchanged. *)
Lemma start_pass T bs bol :
  wf_blocks bs -> no_standalone bs -> (bs <> [] -> bol = true) ->
  replace_scan embedStart_at (embed_text T) bol 0 (blocks_text bs)
  = (blocks_replaced T bs, length bs).
Proof.
  revert bol; induction bs as [|[m P] bs IH]; intros bol Hwf Hns Hb; [reflexivity|].
  simpl in Hwf. destruct Hwf as (Hm & HP & HPe & Hsep & Hwf).
  inversion Hns as [|? ? Hn Hns']; subst. simpl in Hn.
  rewrite (Hb ltac:(discriminate)).
  assert (Hsep' : bs = [] \/ ends_line P) by (destruct Hsep as [H|[_ H]]; auto).
  destruct m as [|C]; [congruence|]. simpl in Hm.
  change (blocks_text ((Region C, P) :: bs))
    with ((start_marker ++ C ++ end_marker) ++ (P ++ blocks_text bs)).
  change (blocks_replaced T ((Region C, P) :: bs))
    with (embed_text T ++ (P ++ blocks_replaced T bs)).
  cbn [length].
  apply (scan_hit _ _ (start_marker ++ C ++ end_marker) (P ++ blocks_text bs)).
  - rewrite <- !app_assoc. apply start_hit; auto. apply at_eol_sep; auto.
  - unfold start_marker. simpl. discriminate.
  - apply scan_skip.
    + intros a1 a2 HPa Ha2. apply (skip_sep _ P); auto. exact start_line_marker.
    + apply IH; auto. intros Hne. apply (sep_bol P bs); auto.
Qed.

(** Merging into keyword-free text followed by any number of marker
    occurrences (standalone lines or start/end regions) replaces each of
    them by the wrapped block. *)
Lemma merge_blocks P0 bs T :
  kw_free P0 -> ends_line P0 -> kw_free T -> wf_blocks bs -> bs <> [] ->
  EmbedContents (Some (P0 ++ blocks_text bs)) T = P0 ++ blocks_replaced T bs.
Proof.
  intros HP0 HP0e HT Hwf Hne. unfold EmbedContents, replace_all.
  assert (Hb : bol_after true P0 = true)
    by (destruct (ends_line_bol P0 true HP0e) as [H | [_ H]]; exact H).
  assert (Hsep : bs = [] \/ ends_line P0) by auto.
  rewrite (scan_skip embedStandalone_at (embed_text T) P0 (blocks_text bs) true
             (blocks_text (map (to_region T) bs)) (count_standalone bs)).
  2: { intros a1 a2 HPa Ha2. apply (skip_sep _ P0); auto. exact standalone_line_marker. }
  2: { rewrite Hb. apply standalone_pass; auto. }
  rewrite (scan_skip embedStart_at (embed_text T) P0 (blocks_text (map (to_region T) bs)) true
             (blocks_replaced T bs) (length bs)).
  2: { intros a1 a2 HPa Ha2. apply (skip_sep _ P0); auto. exact start_line_marker. }
  2: { rewrite Hb, <- blocks_replaced_to_region, <- (length_map (to_region T) bs).
       apply start_pass; auto using wf_to_region, no_standalone_to_region. }
  destruct bs as [|b bs]; [congruence|]. cbn [length].
  rewrite Nat.add_succ_r. reflexivity.
Qed.

Lemma kw_freeb_spec s : kw_freeb s = true -> kw_free s.
Proof.
  induction s as [|c s IH]; intros H x z Hs.
  - destruct x; discriminate Hs.
  - simpl in H. apply andb_prop in H as [H1 H2].
    destruct x as [|d x].
    + cbn [app] in Hs. rewrite Hs in H1. unfold prefixb in H1.
      rewrite strip_prefix_app in H1. discriminate H1.
    + simpl in Hs. injection Hs as _ Hs. exact (IH H2 x z Hs).
Qed.

Lemma ends_lineb_spec P : ends_lineb P = true -> ends_line P.
Proof.
  unfold ends_lineb. intros H. rewrite <- (rev_involutive P).
  destruct (rev P) as [|c r]; [left; reflexivity|].
  apply Ascii.eqb_eq in H. subst c. right. exists (rev r). reflexivity.
Qed.

Lemma at_eolb_spec q : at_eolb q = true -> at_eol q.
Proof.
  destruct q as [|c q]; [left; reflexivity|].
  simpl. intros H. apply Ascii.eqb_eq in H. subst c. right. eexists. reflexivity.
Qed.

Lemma wf_blocksb_spec bs : wf_blocksb bs = true -> wf_blocks bs.
Proof.
  induction bs as [|[m P] bs IH]; [intros; exact I|]. cbn [wf_blocksb wf_blocks].
  intros H. apply andb_prop in H as [H Hwf]. apply andb_prop in H as [H Hsep].
  apply andb_prop in H as [H HPe]. apply andb_prop in H as [Hm HP].
  split; [destruct m; simpl in *; auto using kw_freeb_spec|].
  split; [apply kw_freeb_spec; auto|]. split; [apply at_eolb_spec; auto|].
  split; [|apply IH; auto].
  destruct bs as [|b bs]; [left; reflexivity|]. right.
  apply andb_prop in Hsep as [H1 H2]. split; [|apply ends_lineb_spec; auto].
  destruct P; discriminate.
Qed.

Lemma merge_kw_free data T :
  kw_free data -> EmbedContents (Some data) T = data ++ [nl; nl] ++ T.
Proof.
  intros Hd. unfold EmbedContents, replace_all.
  rewrite scan_kw_free by (auto; apply line_marker_needs_kw, standalone_line_marker).
  rewrite scan_kw_free by (auto; apply line_marker_needs_kw, start_line_marker).
  reflexivity.
Qed.

Lemma embed_text_longer T : length T < length (embed_text T).
Proof. unfold embed_text. rewrite !length_app. simpl. lia. Qed.

(** ** The FNV-128 digest: range, injectivity, collisions *)

Section FNVProofs.
Local Open Scope Z_scope.

Lemma lxor_range n a b :
0 <= n -> 0 <= a < 2 ^ n -> 0 <= b < 2 ^ n -> 0 <= Z.lxor a b < 2 ^ n.
Proof.
intros Hn Ha Hb.
assert (E : Z.lxor a b = Z.lxor a b mod 2 ^ n).
{ apply Z.bits_inj'. intros m Hm.
  destruct (Z.lt_ge_cases m n).
  - rewrite Z.mod_pow2_bits_low; auto.
  - rewrite Z.mod_pow2_bits_high by lia. rewrite Z.lxor_spec.
    rewrite <- (Z.mod_small a (2 ^ n)) by lia.
    rewrite <- (Z.mod_small b (2 ^ n)) by lia.
    rewrite !Z.mod_pow2_bits_high by lia. reflexivity. }
rewrite E. apply Z.mod_pos_bound. apply Z.pow_pos_nonneg; lia.
Qed.

Lemma byte_range c : 0 <= Z.of_N (N_of_ascii c) < 256.
Proof. pose proof (N_ascii_bounded c). lia. Qed.

Lemma step_range h c : 0 <= fnv.step h c < fnv.modulus.
Proof.
unfold fnv.step, fnv.modulus. apply lxor_range; [lia| |].
- apply Z.mod_pos_bound. lia.
- pose proof (byte_range c). lia.
Qed.

Lemma fold_step_range s h :
0 <= h < fnv.modulus -> 0 <= fold_left fnv.step s h < fnv.modulus.
Proof.
revert h. induction s as [|c s IH]; intros h Hh; cbn [fold_left]; auto.
apply IH, step_range.
Qed.

Lemma offset_range : 0 <= fnv.offset128 < fnv.modulus.
Proof. unfold fnv.offset128, fnv.modulus. lia. Qed.

Lemma lxor_cancel_r x y c : Z.lxor x c = Z.lxor y c -> x = y.
Proof.
intros H. apply (f_equal (fun z => Z.lxor z c)) in H.
rewrite !Z.lxor_assoc, Z.lxor_nilpotent, !Z.lxor_0_r in H. exact H.
Qed.

Lemma lxor_cancel_l x a b : Z.lxor x a = Z.lxor x b -> a = b.
Proof. rewrite (Z.lxor_comm x a), (Z.lxor_comm x b). apply lxor_cancel_r. Qed.

(** Multiplication by the odd prime is injective modulo 2^128. *)
Lemma mul_prime_inj h1 h2 :
0 <= h1 < fnv.modulus -> 0 <= h2 < fnv.modulus ->
(h1 * fnv.prime128) mod fnv.modulus = (h2 * fnv.prime128) mod fnv.modulus -> h1 = h2.
Proof.
intros H1 H2 E.
assert (HM : 0 < fnv.modulus) by (unfold fnv.modulus; lia).
pose proof (Z.div_mod (h1 * fnv.prime128) fnv.modulus ltac:(lia)) as D1.
pose proof (Z.div_mod (h2 * fnv.prime128) fnv.modulus ltac:(lia)) as D2.
assert (D : (fnv.modulus | fnv.prime128 * (h1 - h2))).
{ exists (h1 * fnv.prime128 / fnv.modulus - h2 * fnv.prime128 / fnv.modulus). lia. }
apply Z.gauss in D; [|vm_compute; reflexivity].
destruct D as [k Hk].
destruct (Z.lt_trichotomy k 0) as [Hk0|[Hk0|Hk0]].
- assert (k * fnv.modulus <= - fnv.modulus) by nia. lia.
- subst k. lia.
- assert (fnv.modulus <= k * fnv.modulus) by nia. lia.
Qed.

Lemma step_inj h1 h2 c :
0 <= h1 < fnv.modulus -> 0 <= h2 < fnv.modulus ->
fnv.step h1 c = fnv.step h2 c -> h1 = h2.
Proof. unfold fnv.step. intros H1 H2 E. apply mul_prime_inj; auto. eapply lxor_cancel_r; eauto. Qed.

Lemma step_byte_inj h a b : fnv.step h a = fnv.step h b -> a = b.
Proof.
unfold fnv.step. intros E. apply lxor_cancel_l, N2Z.inj in E.
rewrite <- (ascii_N_embedding a), <- (ascii_N_embedding b), E. reflexivity.
Qed.

Lemma fold_step_inj s h1 h2 :
0 <= h1 < fnv.modulus -> 0 <= h2 < fnv.modulus ->
fold_left fnv.step s h1 = fold_left fnv.step s h2 -> h1 = h2.
Proof.
revert h1 h2. induction s as [|c s IH]; intros h1 h2 H1 H2; cbn [fold_left]; auto.
intros E. apply (step_inj _ _ c); auto. apply IH; auto using step_range.
Qed.

Lemma Sum_nth h i :
(i < 16)%nat -> nth i (fnv.Sum h) 0 = Z.land (Z.shiftr h (8 * Z.of_nat (15 - i)%nat)) 255.
Proof.
intros Hi. do 16 (destruct i as [|i]; [reflexivity|]). lia.
Qed.

Lemma Sum_testbit h n :
0 <= n < 128 ->
Z.testbit h n = Z.testbit (nth (15 - Z.to_nat (n / 8))%nat (fnv.Sum h) 0) (n mod 8).
Proof.
intros Hn.
assert (Hk : 0 <= n / 8 < 16) by (split; [apply Z.div_pos|apply Z.div_lt_upper_bound]; lia).
assert (Hj : 0 <= n mod 8 < 8) by (apply Z.mod_pos_bound; lia).
rewrite Sum_nth by lia.
replace (Z.of_nat (15 - (15 - Z.to_nat (n / 8)))%nat) with (n / 8) by lia.
rewrite Z.land_spec, Z.shiftr_spec by lia.
change 255 with (Z.ones 8). rewrite Z.ones_spec_low by lia.
rewrite Bool.andb_true_r. f_equal.
pose proof (Z.div_mod n 8 ltac:(lia)). lia.
Qed.

Lemma testbit_high h n :
0 <= h < fnv.modulus -> 128 <= n -> Z.testbit h n = false.
Proof.
unfold fnv.modulus. intros Hh Hn.
rewrite <- (Z.mod_small h (2 ^ 128)) by lia.
apply Z.mod_pow2_bits_high. lia.
Qed.

Lemma Sum_inj h1 h2 :
0 <= h1 < fnv.modulus -> 0 <= h2 < fnv.modulus -> fnv.Sum h1 = fnv.Sum h2 -> h1 = h2.
Proof.
intros H1 H2 E. apply Z.bits_inj'. intros n Hn.
destruct (Z.lt_ge_cases n 128).
- rewrite !(Sum_testbit _ n) by lia. rewrite E. reflexivity.
- rewrite !testbit_high by (auto; lia). reflexivity.
Qed.

Lemma list_Z_eqb_spec a b : list_Z_eqb a b = true <-> a = b.
Proof.
revert b. induction a as [|x a IH]; intros [|y b]; cbn [list_Z_eqb];
  try (split; congruence).
rewrite Bool.andb_true_iff, Z.eqb_eq, IH. split.
- intros [-> ->]. reflexivity.
- intros E. injection E. auto.
Qed.

Lemma hash128_range s : 0 <= fnv.hash128 s < fnv.modulus.
Proof. apply fold_step_range, offset_range. Qed.

(** On streams without read errors, [Compare] is equality of the 128-bit digests. *)
Lemma Compare_no_error c1 c2 :
Compare (mkStream c1 None) (mkStream c2 None)
= (Z.eqb (fnv.hash128 c1) (fnv.hash128 c2), None).
Proof.
unfold Compare. cbn [read_err contents]. f_equal.
destruct (Z.eqb_spec (fnv.hash128 c1) (fnv.hash128 c2)) as [E|E].
- apply list_Z_eqb_spec. rewrite E. reflexivity.
- destruct (list_Z_eqb _ _) eqn:L; auto.
  apply list_Z_eqb_spec, Sum_inj in L; auto using hash128_range. contradiction.
Qed.

Lemma hash128_one_byte x y a b :
a <> b -> fnv.hash128 (x ++ a :: y) <> fnv.hash128 (x ++ b :: y).
Proof.
unfold fnv.hash128. rewrite !fold_left_app. cbn [fold_left].
intros Hab E. apply fold_step_inj in E; auto using step_range.
apply step_byte_inj in E. contradiction.
Qed.










End FNVProofs.

(** ** The [goflags] parse keeps the [Tags] default unless it sets the flag *)

Lemma parseOne_tags f b e f' :
  flag.parseOne f = (b, e, f') ->
  (flag.tags f' = flag.tags f /\ flag.actual f' = flag.actual f)
  \/ In "Tags"%string (flag.actual f').
Proof.
  intros H. unfold flag.parseOne in H.
  repeat (match goal with
          | H : context [match ?x with _ => _ end] |- _ =>
              let E := fresh "E" in destruct x eqn:E
          end; cbn [flag.args flag.tags flag.actual] in * );
  repeat match goal with
         | H : (_, _) = (_, _) |- _ => injection H; clear H; intros; subst
         end; cbn [flag.tags flag.actual]; auto.
  all: right; left; match goal with
       | E : negb (flag.formal ?n) = false |- _ =>
           unfold flag.formal in E; destruct (String.eqb_spec n "Tags"); [assumption|discriminate]
       end.
Qed.

Lemma parse_loop_tags n f e f' :
  flag.parse_loop n f = (e, f') -> tags_inv f -> tags_inv f'.
Proof.
  revert f. induction n as [|n IH]; intros f H Hf; cbn [flag.parse_loop] in H.
  - injection H as _ <-. exact Hf.
  - destruct (flag.parseOne f) as [[b er] f1] eqn:P.
    assert (Hf1 : tags_inv f1).
    { unfold tags_inv in *. destruct (parseOne_tags _ _ _ _ P) as [[-> ->]|]; auto. }
    destruct b; [exact (IH _ H Hf1)|].
    destruct er; injection H as _ <-; exact Hf1.
Qed.


(** ** The walk of [GetSpecs] over sorted listings *)

Lemma sub_paths_map p files : sub_paths p files = map (sub_path p) (subdirs files).
Proof.
  induction files as [|f files IH]; [reflexivity|].
  unfold subdirs. cbn [sub_paths List.filter].
  destruct (IsIgnoredDir (Name f)), (IsDir f); cbn [andb negb map]; rewrite ?IH; reflexivity.
Qed.

Lemma insert_by_name_perm f l : Permutation (insert_by_name f l) (f :: l).
Proof.
  induction l as [|g l IH]; cbn [insert_by_name]; [reflexivity|].
  destruct (String.ltb (Name g) (Name f)); [|reflexivity].
  rewrite IH. apply perm_swap.
Qed.

Lemma sort_by_name_perm l : Permutation (sort_by_name l) l.
Proof.
  induction l as [|f l IH]; [reflexivity|].
  unfold sort_by_name. cbn [fold_right]. fold (sort_by_name l).
  rewrite insert_by_name_perm, IH. reflexivity.
Qed.

Lemma filter_perm {A} (p : A -> bool) l l' :
  Permutation l l' -> Permutation (List.filter p l) (List.filter p l').
Proof.
  induction 1; cbn [List.filter].
  - constructor.
  - destruct (p x); auto using perm_skip.
  - destruct (p x), (p y); auto using perm_swap, perm_skip, Permutation_refl.
  - eapply perm_trans; eauto.
Qed.

Lemma subdirs_sorted_single es f :
  subdirs es = [f] -> subdirs (sort_by_name es) = [f].
Proof.
  intros H. apply Permutation_length_1_inv. rewrite <- H. unfold subdirs.
  apply Permutation_sym, filter_perm, sort_by_name_perm.
Qed.

Lemma subdirs_sorted_nil es : subdirs es = [] -> subdirs (sort_by_name es) = [].
Proof.
  intros H. apply Permutation_nil. rewrite <- H. unfold subdirs.
  apply Permutation_sym, filter_perm, sort_by_name_perm.
Qed.

Lemma walk_pkgB fs k :
  option_map subdirs (fs "pkgB"%string) = Some [mkFileInfo "inner" true] ->
  default [] (option_map subdirs (fs "pkgB/inner"%string)) = [] ->
  walk fs (S (S (S k))) ["./pkgB/"%string] = Some [new_spec "./pkgB/inner" "./pkgB/inner" true true].
Proof.
  intros Hb Hi. cbn [walk].
  unfold ReadDir. change (filepath.Clean "./pkgB/") with "pkgB"%string.
  destruct (fs "pkgB"%string) as [es|]; [|discriminate]. cbn [option_map] in *.
  injection Hb as Hb.
  rewrite sub_paths_map, (subdirs_sorted_single _ _ Hb).
  change (map (sub_path "./pkgB/") [mkFileInfo "inner" true]) with ["./pkgB/inner"%string].
  cbn [app]. change (filepath.Clean "./pkgB/inner") with "pkgB/inner"%string.
  destruct (fs "pkgB/inner"%string) as [es'|]; cbn [option_map default] in *.
  - rewrite sub_paths_map, (subdirs_sorted_nil _ Hi). reflexivity.
  - reflexivity.
Qed.


(** ** The grouping of [WriteOutput] *)

Lemma group_specs_fold_lookup specs (m : gmap string (list Package)) d :
  fold_left (fun filePkgs spec =>
               match Pkg spec with
               | None => filePkgs
               | Some p =>
                 <[OutputFile spec := default [] (filePkgs !! OutputFile spec) ++ [p]]> filePkgs
               end) specs m !! d
  = match m !! d with
    | None => match dest_pkgs d specs with [] => None | ps => Some ps end
    | Some ps0 => Some (ps0 ++ dest_pkgs d specs)
    end.
Proof.
  revert m. induction specs as [|s specs IH]; intros m; cbn [fold_left dest_pkgs flat_map].
  - destruct (m !! d); [rewrite app_nil_r|]; reflexivity.
  - rewrite IH. fold (dest_pkgs d specs).
    destruct (Pkg s) as [p|] eqn:Hp.
    + destruct (String.eqb_spec (OutputFile s) d) as [<-|Hne].
      * rewrite lookup_insert, decide_True by reflexivity.
        destruct (m !! OutputFile s); cbn [default app].
        -- rewrite <- app_assoc. reflexivity.
        -- reflexivity.
      * rewrite lookup_insert_ne by congruence.
        reflexivity.
    + destruct (String.eqb (OutputFile s) d); reflexivity.
Qed.

Lemma group_specs_lookup specs d :
  group_specs specs !! d
  = match dest_pkgs d specs with [] => None | ps => Some ps end.
Proof. unfold group_specs. rewrite group_specs_fold_lookup. reflexivity. Qed.


(** * Claims *)

(** C1 (merge into a file without markers): for every existing content
    without the marker keyword, merging [T] yields the content, a blank
    line and [T] itself, not the wrapped block with its start/end markers. *)
Theorem EmbedContents_no_marker_appends_raw data T :
  kw_freeb data = true ->
  EmbedContents (Some data) T = data ++ [nl; nl] ++ T
  /\ EmbedContents (Some data) T <> data ++ [nl; nl] ++ embed_text T.
Proof.
  intros Hd. rewrite merge_kw_free by (apply kw_freeb_spec, Hd).
  split; [reflexivity|]. intros H.
  apply app_inv_head in H. apply app_inv_head in H.
  pose proof (embed_text_longer T) as Hl. rewrite <- H in Hl. lia.
Qed.

Lemma EmbedContents_no_marker_appends_raw_witness :
  kw_freeb (lit "hello") = true /\
  EmbedContents (Some (lit "hello")) (lit "doc") = lit "hello" ++ [nl; nl] ++ lit "doc"
  /\ EmbedContents (Some (lit "hello")) (lit "doc")
     <> lit "hello" ++ [nl; nl] ++ embed_text (lit "doc").
Proof.
  split; [reflexivity|].
  apply (EmbedContents_no_marker_appends_raw (lit "hello") (lit "doc")). reflexivity.
Defined.

(** C3, counterexample: the keyword is matched case-sensitively.  A file
    that is the single line [<!-- gomarkdoc:embed -->] is not replaced by
    the wrapped block; the text is appended after it. *)
Lemma EmbedContents_lowercase_marker_kept :
  EmbedContents (Some (lit "<!-- gomarkdoc:embed -->")) (lit "doc")
  = lit "<!-- gomarkdoc:embed -->" ++ [nl; nl] ++ lit "doc"
  /\ EmbedContents (Some (lit "<!-- gomarkdoc:embed -->")) (lit "doc")
     <> embed_text (lit "doc").
Proof. split; vm_compute; [reflexivity | discriminate]. Qed.

(** C3 (amended): with the keyword spelled exactly [gomarkdoc:Embed], a
    file made of keyword-free text ending a line, then one or more
    occurrences of the standalone marker line [<!-- gomarkdoc:Embed -->] or
    of a [<!-- gomarkdoc:Embed:start -->] ... [<!-- gomarkdoc:Embed:end -->]
    region with keyword-free contents, each ending its line and separated
    by keyword-free text, is merged with a keyword-free [T] by replacing
    every occurrence by the wrapped block, the text around them kept. *)
Theorem EmbedContents_replaces_each_marker P0 bs T :
  kw_freeb P0 = true -> ends_lineb P0 = true -> kw_freeb T = true ->
  wf_blocksb bs = true -> bs <> [] ->
  EmbedContents (Some (P0 ++ blocks_text bs)) T = P0 ++ blocks_replaced T bs.
Proof.
  intros HP0 HP0e HT Hwf Hne.
  apply merge_blocks; auto using kw_freeb_spec, ends_lineb_spec, wf_blocksb_spec.
Qed.

Lemma EmbedContents_replaces_each_marker_witness :
  kw_freeb c3_prefix = true /\ ends_lineb c3_prefix = true /\
  kw_freeb (lit "doc") = true /\ wf_blocksb c3_blocks = true /\ c3_blocks <> [] /\
  EmbedContents (Some (c3_prefix ++ blocks_text c3_blocks)) (lit "doc")
  = c3_prefix ++ blocks_replaced (lit "doc") c3_blocks.
Proof.
  split; [reflexivity|]. split; [reflexivity|]. split; [reflexivity|].
  split; [reflexivity|]. split; [discriminate|].
  apply (EmbedContents_replaces_each_marker c3_prefix c3_blocks (lit "doc"));
    [reflexivity | reflexivity | reflexivity | reflexivity | discriminate].
Defined.

(** C7, counterexample: a rendered text that itself holds a standalone
    marker line is not a fixed point: merging it into its own wrapped
    region changes the file. *)
Lemma EmbedContents_not_idempotent_marker_text :
  EmbedContents (Some (embed_text (lit "<!-- gomarkdoc:Embed -->")))
    (lit "<!-- gomarkdoc:Embed -->")
  <> embed_text (lit "<!-- gomarkdoc:Embed -->").
Proof. vm_compute. discriminate. Qed.

(** C7 (amended): merge is idempotent for every rendered text [T] that does
    not contain the marker keyword [gomarkdoc:Embed]: merging [T] into a
    file that is exactly the wrapped region for [T] gives that file back. *)
Theorem EmbedContents_idempotent T :
  kw_freeb T = true -> EmbedContents (Some (embed_text T)) T = embed_text T.
Proof.
  intros HT. set (C := [nl; nl] ++ T ++ [nl; nl]).
  pose proof (merge_blocks [] [(Region C, [])] T kw_free_nil
                (or_introl eq_refl) (kw_freeb_spec T HT)) as H.
  assert (E1 : [] ++ blocks_text [(Region C, [])] = embed_text T)
    by (rewrite embed_text_markers; cbn [blocks_text marker_text app];
        rewrite !app_nil_r; reflexivity).
  assert (E2 : [] ++ blocks_replaced T [(Region C, [])] = embed_text T)
    by (cbn [blocks_replaced app]; rewrite !app_nil_r; reflexivity).
  rewrite E1, E2 in H. apply H; [|discriminate].
  cbn [wf_blocks marker_ok].
  repeat split; auto using kw_free_nil; [apply kw_free_nls, kw_freeb_spec, HT | left; reflexivity].
Qed.

Lemma EmbedContents_idempotent_witness :
  kw_freeb (lit "doc") = true /\
  EmbedContents (Some (embed_text (lit "doc"))) (lit "doc") = embed_text (lit "doc").
Proof. split; [reflexivity|]. apply (EmbedContents_idempotent (lit "doc")). reflexivity. Defined.

(** C9: for a destination that is the empty string, the output step
    prints the rendered text to standard output and does nothing else,
    whatever the embed and check options: no file is read, opened or
    written, and the world is unchanged. *)
Theorem write_unit_empty_destination_prints opts w text :
  write_unit opts w "" text = (w, [EvStdout text], None).
Proof. unfold write_unit. destruct (Embed opts); reflexivity. Qed.

Lemma CheckFile_same_content w b path :
  files w !! path = Some b -> CheckFile w b path = ([EvOpen path], None).
Proof.
  intros H. assert (Hr : forall l, list_Z_eqb l l = true)
    by (induction l; simpl; [reflexivity | rewrite Z.eqb_refl; assumption]).
  unfold CheckFile, os_Open. rewrite H. unfold Compare. cbn [read_err contents].
  rewrite Hr. reflexivity.
Qed.

(** In check mode, a destination whose content is the rendered text is
    accepted with nothing written. *)
Lemma check_same_content_no_write opts w path text :
  Check_ opts = true -> Embed opts = false -> String.eqb path "" = false ->
  files w !! path = Some text ->
  write_unit opts w path text = (w, [EvOpen path], None).
Proof.
  intros Hc He Hp Hf. unfold write_unit. rewrite He, Hp, Hc. simpl.
  rewrite (CheckFile_same_content w text path Hf). reflexivity.
Qed.

(** C2: in check mode, a destination file that does not exist is reported
    with the open error ["failed to open file <path> for checking: open
    <path>: no such file or directory"], not with the drift error:
    [os.Open] returns a [*PathError], never the sentinel [os.ErrNotExist]
    the code compares it with. *)
Theorem check_missing_file_open_error opts w path text :
  Check_ opts = true -> String.eqb path "" = false -> files w !! path = None ->
  write_unit opts w path text
  = (w, (if Embed opts then [EvReadFile path] else []) ++ [EvOpen path],
     Some (open_check_error path))
  /\ Error (open_check_error path) <> Error checkErr.
Proof.
  intros Hc Hp Hf. split.
  - unfold write_unit. rewrite Hp, Hc.
    destruct (Embed opts); simpl;
      unfold EmbedContents_io, os_ReadFile, CheckFile, os_Open; rewrite Hf; reflexivity.
  - simpl. discriminate.
Qed.

Lemma check_missing_file_open_error_witness :
  Check_ (mkOptions false true) = true /\ String.eqb "README.md" "" = false /\
  files (mkWorld ∅) !! "README.md" = None /\
  write_unit (mkOptions false true) (mkWorld ∅) "README.md" (lit "doc")
  = (mkWorld ∅, [EvOpen "README.md"], Some (open_check_error "README.md"))
  /\ Error (open_check_error "README.md") <> Error checkErr.
Proof.
  split; [reflexivity|]. split; [reflexivity|]. split; [reflexivity|].
  apply (check_missing_file_open_error (mkOptions false true) (mkWorld ∅) "README.md" (lit "doc"));
    reflexivity.
Defined.

(** C4, counterexample: the flag set of [DefaultTags] defines the flag
    [Tags], with a capital T, so the fallback ["-tags=foo,bar"] fails to
    parse and gives no tags, while ["-Tags=foo,bar"] gives ["foo"; "bar"];
    ["-other=x"] gives no tags. *)
Theorem DefaultTags_lowercase_tags_flag :
  DefaultTags (Some "-tags=foo,bar") = []
  /\ DefaultTags (Some "-Tags=foo,bar") = ["foo"; "bar"]
  /\ DefaultTags (Some "-other=x") = [].
Proof. split; [|split]; vm_compute; reflexivity. Qed.

(** C4 (amended): the fallback string is parsed with the flag [-Tags]
    (capital T, the spelling the command uses): ["-Tags=foo,bar"] gives
    ["foo"; "bar"], while ["-tags=foo,bar"] and ["-other=x"] name an
    undefined flag and give an empty tag list; every flags string whose
    parse fails gives an empty tag list, and no error is returned. *)
Theorem DefaultTags_capital_Tags_flag f e fs' :
  flag.Parse (flag.mkFlagSet [] "" []) (gostrings.Fields f) = (Some e, fs') ->
  DefaultTags (Some f) = []
  /\ DefaultTags (Some "-Tags=foo,bar") = ["foo"; "bar"]
  /\ DefaultTags (Some "-tags=foo,bar") = []
  /\ DefaultTags (Some "-other=x") = [].
Proof.
  intros P. split; [unfold DefaultTags; rewrite P; reflexivity|].
  split; [|split]; vm_compute; reflexivity.
Qed.

Lemma DefaultTags_capital_Tags_flag_witness :
  flag.Parse (flag.mkFlagSet [] "" []) (gostrings.Fields "-Tags")
  = (Some "flag needs an argument: -Tags", flag.mkFlagSet [] "" [])
  /\ DefaultTags (Some "-Tags") = []
  /\ DefaultTags (Some "-Tags=foo,bar") = ["foo"; "bar"]
  /\ DefaultTags (Some "-tags=foo,bar") = []
  /\ DefaultTags (Some "-other=x") = [].
Proof.
  assert (P : flag.Parse (flag.mkFlagSet [] "" []) (gostrings.Fields "-Tags")
              = (Some "flag needs an argument: -Tags", flag.mkFlagSet [] "" []))
    by (vm_compute; reflexivity).
  split; [exact P|]. apply (DefaultTags_capital_Tags_flag _ _ _ P).
Defined.

(** C5, counterexample: [WriteOutput] ranges over the Go map [filePkgs],
    whose iteration order is unspecified.  With specs whose first-seen
    destinations are ["b.md"] then ["a.md"], a run may write ["a.md"]
    first. *)
Lemma WriteOutput_units_not_first_seen_order :
  WriteOutput_runs c5_render (mkOptions false false) c5_specs (mkWorld ∅)
    (mkWorld (<["b.md" := lit "doc"]> (<["a.md" := lit "doc"]> ∅)),
     [EvMkdirAll "."; EvWriteFile "a.md" (lit "doc");
      EvMkdirAll "."; EvWriteFile "b.md" (lit "doc")], None).
Proof.
  exists [("a.md"%string, [mkPackage "a"]); ("b.md"%string, [mkPackage "b"])].
  split.
  - vm_compute. first [reflexivity | apply perm_swap].
  - vm_compute. reflexivity.
Qed.

(** C5 (amended): in any order a run of [WriteOutput] may visit the
    grouped units, every destination occurs once, and the unit of a
    destination [d] holds exactly the packages of the specs with output
    file [d], in the order of the specs; specs without a package
    contribute nothing, and a destination without packages has no unit.
    The order of the units themselves is unspecified. *)
Theorem group_specs_units specs order :
  order ≡ₚ map_to_list (group_specs specs) ->
  NoDup (map fst order)
  /\ (forall d ps, In (d, ps) order <-> ps = dest_pkgs d specs /\ ps <> []).
Proof.
  intros Hp. split.
  - assert (E : forall l : list (string * list Package), map fst l = l.*1).
    { induction l as [|x l IHl]; cbn; [reflexivity|]. rewrite IHl. reflexivity. }
    rewrite E, Hp. apply NoDup_fst_map_to_list.
  - intros d ps. rewrite <- list_elem_of_In, Hp, elem_of_map_to_list, group_specs_lookup.
    destruct (dest_pkgs d specs) as [|p ps'].
    + split; [discriminate|]. intros [-> []]. reflexivity.
    + split.
      * intros [= <-]. split; [reflexivity|discriminate].
      * intros [-> _]. reflexivity.
Qed.

Lemma group_specs_units_witness :
  map_to_list (group_specs c5_specs) ≡ₚ map_to_list (group_specs c5_specs)
  /\ NoDup (map fst (map_to_list (group_specs c5_specs)))
  /\ (forall d ps, In (d, ps) (map_to_list (group_specs c5_specs))
                   <-> ps = dest_pkgs d c5_specs /\ ps <> []).
Proof.
  split; [reflexivity|]. apply group_specs_units. reflexivity.
Defined.

(** C6: for the arguments ["./pkgA"; "./pkgB/..."], on a file system where
    the sub-directories of [pkgB] that are not ignored are exactly [inner]
    (an ignored [.git] may sit next to it) and [pkgB/inner] has no such
    sub-directory, [GetSpecs] returns the specs of [./pkgA]
    (not a wildcard), [./pkgB/] (wildcard) and [./pkgB/inner] (wildcard),
    in this order, and none for [.git].  [fuel >= 3] lets the walk finish. *)
Theorem GetSpecs_pkgA_pkgB_wildcard fs fuel :
  3 <= fuel ->
  option_map subdirs (fs "pkgB"%string) = Some [mkFileInfo "inner" true] ->
  default [] (option_map subdirs (fs "pkgB/inner"%string)) = [] ->
  GetSpecs fs fuel ["./pkgA"; "./pkgB/..."]%string
  = Some [new_spec "./pkgA" "./pkgA" false true;
          new_spec "./pkgB/" "./pkgB/" true true;
          new_spec "./pkgB/inner" "./pkgB/inner" true true].
Proof.
  intros Hf Hb Hi.
  destruct fuel as [|[|[|k]]]; try lia.
  cbn [GetSpecs].
  change (expand_path fs (S (S (S k))) "./pkgA") with
    (Some [new_spec "./pkgA" "./pkgA" false true]).
  change (expand_path fs (S (S (S k))) "./pkgB/...") with
    (option_map (fun rest => new_spec "./pkgB/" "./pkgB/" true true :: rest)
                (walk fs (S (S (S k))) ["./pkgB/"%string])).
  rewrite walk_pkgB by assumption. reflexivity.
Qed.

Lemma GetSpecs_pkgA_pkgB_wildcard_witness :
  3 <= 5 /\
  option_map subdirs (c6_fs "pkgB"%string) = Some [mkFileInfo "inner" true] /\
  default [] (option_map subdirs (c6_fs "pkgB/inner"%string)) = [] /\
  GetSpecs c6_fs 5 ["./pkgA"; "./pkgB/..."]%string
  = Some [new_spec "./pkgA" "./pkgA" false true;
          new_spec "./pkgB/" "./pkgB/" true true;
          new_spec "./pkgB/inner" "./pkgB/inner" true true].
Proof.
  split; [lia|]. split; [reflexivity|]. split; [reflexivity|].
  apply GetSpecs_pkgA_pkgB_wildcard; [lia|reflexivity|reflexivity].
Defined.




(** C10: when [GOFLAGS] parses without error and does not set [-Tags],
    [DefaultTags] returns [strings.Split("", ",")], the one-element list
    [[""]], not an empty list. *)
Theorem DefaultTags_no_tags_flag_empty_string f fs' :
  flag.Parse (flag.mkFlagSet [] "" []) (gostrings.Fields f) = (None, fs') ->
  existsb (String.eqb "Tags") (flag.actual fs') = false ->
  DefaultTags (Some f) = [""%string].
Proof.
  intros HP HT. unfold DefaultTags. rewrite HP.
  assert (Hi : tags_inv fs').
  { unfold flag.Parse in HP. eapply parse_loop_tags; [exact HP|]. left. reflexivity. }
  destruct Hi as [-> | Hin]; [reflexivity|].
  exfalso. assert (existsb (String.eqb "Tags") (flag.actual fs') = true) as Hc.
  { apply existsb_exists. exists "Tags"%string. split; [assumption|]. apply String.eqb_refl. }
  congruence.
Qed.

Lemma DefaultTags_no_tags_flag_empty_string_witness :
  flag.Parse (flag.mkFlagSet [] "" []) (gostrings.Fields "notaflag")
  = (None, flag.mkFlagSet ["notaflag"%string] "" [])
  /\ existsb (String.eqb "Tags") (flag.actual (flag.mkFlagSet ["notaflag"%string] "" [])) = false
  /\ DefaultTags (Some "notaflag") = [""%string].
Proof.
  split; [reflexivity|]. split; [reflexivity|].
  apply (DefaultTags_no_tags_flag_empty_string "notaflag" (flag.mkFlagSet ["notaflag"%string] "" []));
    reflexivity.
Defined.

(** * Further properties of the command

    Helper: [filepath.Clean] never returns the empty string. *)
Lemma Clean_nonempty s : filepath.Clean s <> EmptyString.
Proof.
  unfold filepath.Clean. destruct s as [|c s']; [discriminate|].
  destruct (if filepath.IsPathSeparator c then _ else _) as [[rest outr] dd].
  destruct (filepath.clean_loop _ _ _ _ _) as [|x l]; [discriminate|].
  unfold filepath.FromSlash. intros H.
  apply (f_equal list_ascii_of_string) in H.
  rewrite list_ascii_of_string_of_list_ascii in H.
  apply (f_equal (@length ascii)) in H. rewrite length_rev in H. discriminate.
Qed.

Lemma Dir_nonempty s : filepath.Dir s <> EmptyString.
Proof. apply Clean_nonempty. Qed.

(** When [WriteFile] succeeds it has created the parent folder first:
    [filepath.Dir] never returns the empty string, so the [folder != ""]
    test always holds; the file then holds exactly [text]. *)
Theorem WriteFile_success_creates_folder w fileName text w' ev :
  WriteFile w fileName text = (w', ev, None) ->
  ev = [EvMkdirAll (filepath.Dir fileName); EvWriteFile fileName text]
  /\ files w' !! fileName = Some text.
Proof.
  unfold WriteFile. destruct (String.eqb_spec (filepath.Dir fileName) "") as [E|_].
  - exfalso. exact (Dir_nonempty _ E).
  - intros H. injection H as <- <-. split; [reflexivity|]. cbn [files].
    rewrite lookup_insert, decide_True by reflexivity. reflexivity.
Qed.

(** A successful [ResolveOutput] executes the output template on every spec
    and changes only its [OutputFile]: it is empty exactly when the template
    printed nothing, and otherwise the cleaned template output. *)
Theorem ResolveOutput_empty_destination Execute specs specs' :
  ResolveOutput Execute specs = inl specs' ->
  Forall2 (fun s s' => exists out, Execute s = inl out
                       /\ s' = set_OutputFile s (OutputFile s')
                       /\ (OutputFile s' = EmptyString <-> out = EmptyString)
                       /\ (out <> EmptyString -> OutputFile s' = filepath.Clean out))
          specs specs'.
Proof.
  revert specs'. induction specs as [|s specs IH]; intros specs' H; cbn [ResolveOutput] in H.
  - injection H as <-. constructor.
  - destruct (Execute s) as [out|err] eqn:Ex; [|discriminate].
    destruct (ResolveOutput Execute specs) as [rest|err] eqn:R; [|discriminate].
    injection H as <-. constructor; [|apply IH; reflexivity].
    exists out. split; [exact Ex|]. cbn [OutputFile set_OutputFile].
    destruct (String.eqb_spec out "") as [->|Hne]; cbn [OutputFile].
    + split; [reflexivity|]. split; [tauto|]. intros []; reflexivity.
    + split; [reflexivity|]. split; [|tauto]. split; [|intros; contradiction].
      intros E. exfalso. exact (Clean_nonempty _ E).
Qed.

Lemma split_loop_nonempty sep s cur : gostrings.split_loop sep s cur <> [].
Proof.
  revert cur. induction s as [|c s IH]; intros cur; cbn [gostrings.split_loop]; [discriminate|].
  destruct (Ascii.eqb c sep); [discriminate|apply IH].
Qed.

Lemma split_loop_join sep s cur :
  join_bytes sep (gostrings.split_loop sep s cur) = rev cur ++ s.
Proof.
  revert cur. induction s as [|c s IH]; intros cur; cbn [gostrings.split_loop].
  - rewrite app_nil_r. reflexivity.
  - destruct (Ascii.eqb_spec c sep) as [->|Hne].
    + destruct (gostrings.split_loop sep s []) as [|p ps] eqn:E;
        [exfalso; exact (split_loop_nonempty _ _ _ E)|].
      change (join_bytes sep (rev cur :: p :: ps)) with (rev cur ++ sep :: join_bytes sep (p :: ps)).
      rewrite <- E, IH. reflexivity.
    + rewrite IH. cbn [rev]. rewrite <- app_assoc. reflexivity.
Qed.

Lemma string_of_list_ascii_app x y :
  string_of_list_ascii (x ++ y) = (string_of_list_ascii x ++ string_of_list_ascii y)%string.
Proof. induction x as [|c x IH]; cbn; [reflexivity|]. rewrite IH. reflexivity. Qed.

Lemma concat_join sep (ls : list bytes) :
  String.concat (String sep EmptyString) (map string_of_list_ascii ls)
  = string_of_list_ascii (join_bytes sep ls).
Proof.
  induction ls as [|a ls IH]; [reflexivity|].
  destruct ls as [|b ls]; [reflexivity|].
  change (String.concat (String sep EmptyString) (map string_of_list_ascii (a :: b :: ls)))
    with (string_of_list_ascii a ++ String sep EmptyString
          ++ String.concat (String sep EmptyString) (map string_of_list_ascii (b :: ls)))%string.
  rewrite IH. set (J := join_bytes sep (b :: ls)).
  change (join_bytes sep (a :: b :: ls)) with (a ++ sep :: J).
  rewrite string_of_list_ascii_app. reflexivity.
Qed.

(** [DefaultTags] returns no tags exactly when [GOFLAGS] is unset or fails
    to parse: for any parsed value, [strings.Split] gives at least one tag. *)
Theorem DefaultTags_empty_iff_error goflags :
  DefaultTags goflags = []
  <-> goflags = None
      \/ exists f e fs', goflags = Some f
                         /\ flag.Parse (flag.mkFlagSet [] "" []) (gostrings.Fields f) = (Some e, fs').
Proof.
  unfold DefaultTags. destruct goflags as [f|].
  - destruct (flag.Parse _ _) as [[e|] fs'] eqn:P.
    + split; [intros _; right; exists f, e, fs'; split; [reflexivity|exact P]|reflexivity].
    + unfold gostrings.Split. split.
      * intros H. apply map_eq_nil, split_loop_nonempty in H. contradiction.
      * intros [H|(f' & e & fs'' & H & P')]; [discriminate|].
        injection H as <-. congruence.
  - split; [left; reflexivity|reflexivity].
Qed.

(** When [GOFLAGS] parses, joining the tags of [DefaultTags] with commas
    gives back the [-tags] value exactly, empty pieces included. *)
Theorem DefaultTags_join_roundtrip f fs' :
  flag.Parse (flag.mkFlagSet [] "" []) (gostrings.Fields f) = (None, fs') ->
  String.concat "," (DefaultTags (Some f)) = flag.tags fs'.
Proof.
  intros P. unfold DefaultTags. rewrite P. unfold gostrings.Split.
  rewrite concat_join, split_loop_join. cbn [rev app].
  apply string_of_list_ascii_of_string.
Qed.


Lemma file_overrides_ok w content entries ev fos :
  file_overrides w content entries = (ev, inl fos) ->
  forall name s, In (WithTemplateOverride name s) fos
  <-> exists file b, In (name, file) entries /\ content !! name = None
                    /\ files w !! file = Some b /\ s = string_of_list_ascii b.
Proof.
  revert ev fos. induction entries as [|[n f] entries IH]; intros ev fos H name s;
    cbn [file_overrides] in H.
  - injection H as _ <-. split; [intros []|]. intros (? & ? & [] & _).
  - destruct (content !! n) as [c|] eqn:Cn.
    + rewrite (IH _ _ H). split.
      * intros (file & b & Hin & Hc & Hf & ->). exists file, b. split; [right; exact Hin|auto].
      * intros (file & b & [Heq|Hin] & Hc & Hf & ->).
        -- injection Heq as E1 E2; subst. congruence.
        -- exists file, b. auto.
    + unfold ioutil_ReadFile in H. destruct (files w !! f) as [b|] eqn:Fb; [|discriminate].
      destruct (file_overrides w content entries) as [ev' [fos'|err]] eqn:F; [|discriminate].
      injection H as _ <-. specialize (IH _ _ eq_refl name s).
      cbn [In]. rewrite IH. split.
      * intros [Heq|(file & b' & Hin & Hc & Hf & ->)].
        -- injection Heq as E1 E2; subst. exists f, b. auto.
        -- exists file, b'. auto.
      * intros (file & b' & [Heq|Hin] & Hc & Hf & ->).
        -- injection Heq as E1 E2; subst. left. assert (Eb : Some b = Some b') by (rewrite <- Fb, <- Hf; reflexivity). injection Eb as ->. reflexivity.
        -- right. exists file, b'. auto.
Qed.

(** In any order of the two map ranges, a successful [ResolveOverrides]
    ends with the option of a valid format, and a template is overridden
    with [s] exactly when [s] is its content override, or it has no content
    override and [s] is the contents of its existing override file. *)
Theorem ResolveOverrides_templates w opts o1 o2 ev os :
  o1 ≡ₚ map_to_list (TemplateOverrides opts) ->
  o2 ≡ₚ map_to_list (TemplateFileOverrides opts) ->
  ResolveOverrides_with w opts o1 o2 = (ev, inl os) ->
  exists ovs f,
    os = ovs ++ [WithFormat f] /\ format_of (Format opts) = Some f
    /\ forall name s, In (WithTemplateOverride name s) ovs
       <-> TemplateOverrides opts !! name = Some s
           \/ (TemplateOverrides opts !! name = None
               /\ exists file b, TemplateFileOverrides opts !! name = Some file
                                 /\ files w !! file = Some b /\ s = string_of_list_ascii b).
Proof.
  intros P1 P2 H. unfold ResolveOverrides_with in H.
  destruct (file_overrides w (TemplateOverrides opts) o2) as [ev' [fos|err]] eqn:F;
    [|discriminate].
  destruct (format_of (Format opts)) as [f|] eqn:Ef; [|discriminate].
  injection H as _ <-.
  exists (map (fun '(name, s) => WithTemplateOverride name s) o1 ++ fos), f.
  split; [rewrite <- app_assoc; reflexivity|]. split; [reflexivity|].
  intros name s. rewrite in_app_iff, (file_overrides_ok _ _ _ _ _ F).
  assert (Hm : forall (m : gmap string string) o k v,
             o ≡ₚ map_to_list m -> In (k, v) o <-> m !! k = Some v).
  { intros m o k v Hp. rewrite <- list_elem_of_In, Hp, elem_of_map_to_list. reflexivity. }
  assert (Hmap : In (WithTemplateOverride name s)
                    (map (fun '(name, s) => WithTemplateOverride name s) o1)
                 <-> In (name, s) o1).
  { rewrite in_map_iff. split.
    - intros [[n v] [Heq Hin]]. injection Heq as E1 E2; subst. exact Hin.
    - intros Hin. exists (name, s). auto. }
  rewrite Hmap, (Hm _ _ _ _ P1). split.
  - intros [H|(file & b & Hin & Hc & Hf & ->)]; [left; exact H|].
    right. split; [exact Hc|]. exists file, b. rewrite <- (Hm _ _ _ _ P2). auto.
  - intros [H|(Hc & file & b & Hfile & Hf & ->)]; [left; exact H|].
    right. exists file, b. rewrite (Hm _ _ _ _ P2). auto.
Qed.

Section LoadProofs.
Variable BuildPackage : Type.
Variable GetBuildPackage : string -> list string -> BuildPackage + go_error.
Variable NewPackageFromBuild : BuildPackage -> Package + go_error.

(** A successful [LoadPackages] gives each spec the package built for its
    import path, except wildcard specs whose build failed, which are kept
    unchanged with no package. *)
Theorem LoadPackages_result tags specs specs' :
  LoadPackages BuildPackage GetBuildPackage NewPackageFromBuild tags specs = inl specs' ->
  Forall2 (fun s s' =>
             (exists b pkg, GetBuildPackage (ImportPath s) tags = inl b
                            /\ NewPackageFromBuild b = inl pkg /\ s' = set_Pkg s (Some pkg))
             \/ (IsWildcard s = true /\ (exists e, GetBuildPackage (ImportPath s) tags = inr e)
                 /\ s' = s))
          specs specs'.
Proof.
  revert specs'. induction specs as [|s specs IH]; intros specs' H; cbn [LoadPackages] in H.
  - injection H as <-. constructor.
  - destruct (GetBuildPackage (ImportPath s) tags) as [b|e] eqn:G.
    + destruct (NewPackageFromBuild b) as [pkg|e] eqn:N; [|discriminate].
      destruct (LoadPackages _ _ _ tags specs) as [rest|e] eqn:L; [|discriminate].
      injection H as <-. constructor; [|apply IH; reflexivity].
      left. exists b, pkg. auto.
    + destruct (IsWildcard s) eqn:W; [|discriminate].
      destruct (LoadPackages _ _ _ tags specs) as [rest|e'] eqn:L; [|discriminate].
      injection H as <-. constructor; [|apply IH; reflexivity].
      right. split; [exact W|]. split; [exists e; exact G|reflexivity].
Qed.

(** A non-wildcard spec whose build fails makes [LoadPackages] fail. *)
Theorem LoadPackages_nonwildcard_error tags specs s e :
  In s specs -> IsWildcard s = false -> GetBuildPackage (ImportPath s) tags = inr e ->
  exists e', LoadPackages BuildPackage GetBuildPackage NewPackageFromBuild tags specs = inr e'.
Proof.
  intros Hin Hw Hg. induction specs as [|s0 specs IH]; [destruct Hin|].
  cbn [LoadPackages]. destruct Hin as [->|Hin].
  - rewrite Hg, Hw. eauto.
  - destruct (IH Hin) as [e' He'].
    destruct (GetBuildPackage (ImportPath s0) tags) as [b|e0].
    + destruct (NewPackageFromBuild b); [rewrite He'|]; eauto.
    + destruct (IsWildcard s0); [rewrite He'|]; eauto.
Qed.
End LoadProofs.

Lemma sub_path_local p f : IsLocalPath (sub_path p f) = true.
Proof.
  unfold sub_path. destruct (IsLocalPath (filepath.Join [p; Name f])) eqn:E; [exact E|].
  destruct (filepath.Join [p; Name f]); reflexivity.
Qed.

Lemma walk_specs fs n q r :
  walk fs n q = Some r ->
  forall s, In s r -> exists x, s = new_spec x x true true /\ IsLocalPath x = true.
Proof.
  revert q r. induction n as [|n IH]; intros q r H; cbn [walk] in H; [discriminate|].
  destruct q as [|p q]; [injection H as <-; intros s []|].
  destruct (ReadDir fs p) as [fl|]; [|exact (IH _ _ H)].
  destruct (walk fs n (q ++ sub_paths p fl)) as [rest|] eqn:W; [|discriminate].
  injection H as <-. intros s Hs. apply in_app_iff in Hs as [Hs|Hs]; [|exact (IH _ _ W s Hs)].
  rewrite sub_paths_map in Hs. apply in_map_iff in Hs as [x [<- Hx]].
  apply in_map_iff in Hx as [f [<- _]]. exists (sub_path p f). split; [reflexivity|].
  apply sub_path_local.
Qed.

Lemma HasPrefix_substring n s q :
  gostrings.HasPrefix (substring 0 n s) q = true -> gostrings.HasPrefix s q = true.
Proof.
  revert n q. induction s as [|c s IH]; intros n q H.
  - destruct n; exact H.
  - destruct q as [|d q]; [reflexivity|]. destruct n as [|n]; [discriminate|].
    cbn [substring gostrings.HasPrefix] in *. apply andb_prop in H as [H1 H2].
    rewrite H1. exact (IH _ _ H2).
Qed.

Lemma IsLocalPath_substring n s :
  IsLocalPath (substring 0 n s) = true -> IsLocalPath s = true.
Proof.
  unfold IsLocalPath, filepath.IsAbs. intros H.
  apply orb_prop in H as [H|H]; [apply orb_prop in H as [H|H]|].
  all: apply HasPrefix_substring in H; rewrite H; rewrite ?orb_true_r; reflexivity.
Qed.

(** Every spec of [GetSpecs] has no output file and no package yet, is local
    exactly when its directory is a local path, has its import path as
    directory when local and ["."] otherwise, and is local when it is a
    wildcard. *)
Theorem GetSpecs_shape fs fuel paths specs :
  GetSpecs fs fuel paths = Some specs ->
  Forall (fun s =>
            OutputFile s = EmptyString /\ Pkg s = None
            /\ IsLocal s = IsLocalPath (Dir s)
            /\ (IsLocal s = true -> Dir s = ImportPath s)
            /\ (IsLocal s = false -> Dir s = "."%string)
            /\ (IsWildcard s = true -> IsLocal s = true)) specs.
Proof.
  assert (Hdot : IsLocalPath "." = false) by reflexivity.
  revert specs. induction paths as [|p paths IH]; intros specs H; cbn [GetSpecs] in H.
  - injection H as <-. constructor.
  - destruct (expand_path fs fuel p) as [a|] eqn:E; [|discriminate].
    destruct (GetSpecs fs fuel paths) as [b|] eqn:G; [|discriminate].
    injection H as <-. apply Forall_app. split; [|apply IH; reflexivity].
    unfold expand_path, filepath.FromSlash in E.
    destruct (gostrings.HasSuffix p _); cbn [negb] in E.
    + destruct (IsLocalPath (substring 0 (String.length p - 3) p)) eqn:L; cbn [negb] in E.
      * destruct (walk fs fuel [substring 0 (String.length p - 3) p]) as [rest|] eqn:W;
          [|discriminate].
        injection E as <-. constructor.
        -- cbn. repeat split; auto; discriminate.
        -- apply List.Forall_forall. intros s Hs.
           destruct (walk_specs _ _ _ _ W s Hs) as [x [-> Hx]]. cbn. repeat split; auto; discriminate.
      * injection E as <-. constructor; [|constructor]. cbn. repeat split; auto; discriminate.
    + injection E as <-. constructor; [|constructor].
      destruct (IsLocalPath p) eqn:L; cbn; repeat split; auto; discriminate.
Qed.

(** A path that is not local gives one non-local, non-wildcard spec with
    directory ["."], even when it ends in ["/..."]; no directory is read. *)
Theorem GetSpecs_remote_path fs fuel p :
  IsLocalPath p = false -> GetSpecs fs fuel [p] = Some [new_spec "." p false false].
Proof.
  intros Hp. cbn [GetSpecs]. unfold expand_path, filepath.FromSlash.
  destruct (gostrings.HasSuffix p _); cbn [negb].
  - destruct (IsLocalPath (substring 0 (String.length p - 3) p)) eqn:L; [|reflexivity].
    apply IsLocalPath_substring in L. congruence.
  - rewrite Hp. reflexivity.
Qed.







Lemma WriteFile_eq w fileName text :
  WriteFile w fileName text
  = (mkWorld (<[fileName := text]> (files w)),
     [EvMkdirAll (filepath.Dir fileName); EvWriteFile fileName text], None).
Proof.
  unfold WriteFile. destruct (String.eqb_spec (filepath.Dir fileName) "") as [E|_].
  - exfalso. exact (Dir_nonempty _ E).
  - reflexivity.
Qed.

Lemma CheckFile_events w b path : fst (CheckFile w b path) = [EvOpen path].
Proof.
  unfold CheckFile, os_Open. destruct (files w !! path) as [data|]; [|reflexivity].
  destruct (Compare _ _) as [m [e|]]; reflexivity.
Qed.

Lemma write_unit_check opts w d t w1 ev r :
  Check_ opts = true -> write_unit opts w d t = (w1, ev, r) ->
  w1 = w /\ Forall (fun e => match e with
                             | EvMkdirAll _ | EvWriteFile _ _ => False
                             | _ => True end) ev.
Proof.
  intros Hc H. unfold write_unit in H. rewrite Hc in H.
  destruct (Embed opts && negb (String.eqb d "")).
  - unfold EmbedContents_io, os_ReadFile in H.
    destruct (String.eqb d "").
    + injection H as <- <- _. split; [reflexivity|]. repeat constructor.
    + pose proof (CheckFile_events w (EmbedContents (files w !! d) t) d) as E.
      destruct (CheckFile w _ d) as [ev1 r1]. cbn in E. subst ev1.
      injection H as <- <- _. split; [reflexivity|]. repeat constructor.
  - destruct (String.eqb d "").
    + injection H as <- <- _. split; [reflexivity|]. repeat constructor.
    + pose proof (CheckFile_events w t d) as E.
      destruct (CheckFile w t d) as [ev1 r1]. cbn in E. subst ev1.
      injection H as <- <- _. split; [reflexivity|]. repeat constructor.
Qed.

(** In check mode the output loop never writes: the files are unchanged and
    no directory creation or file write happens, whatever the outcome. *)
Theorem write_units_check_pure render opts w order w' evs r :
  Check_ opts = true -> write_units render opts w order = (w', evs, r) ->
  w' = w /\ Forall (fun e => match e with
                             | EvMkdirAll _ | EvWriteFile _ _ => False
                             | _ => True end) evs.
Proof.
  intros Hc. revert w' evs r. induction order as [|[d ps] order IH]; intros w' evs r H;
    cbn [write_units] in H.
  - injection H as <- <- _. auto.
  - destruct (render ps) as [t|e]; [|injection H as <- <- _; auto].
    destruct (write_unit opts w d t) as [[w1 ev1] r1] eqn:U.
    destruct (write_unit_check _ _ _ _ _ _ _ Hc U) as [-> F1].
    destruct r1 as [e|].
    + injection H as <- <- _. auto.
    + destruct (write_units render opts w order) as [[w2 ev2] r2] eqn:R.
      injection H as <- <- _. destruct (IH _ _ _ eq_refl) as [-> F2].
      split; [reflexivity|]. apply Forall_app. auto.
Qed.

(** Writing a rendered file and then checking it with the same text passes:
    the write creates the folder and the file, and the check only opens it. *)
Theorem write_then_check w d t w' ev :
  String.eqb d "" = false ->
  write_unit (mkOptions false false) w d t = (w', ev, None) ->
  ev = [EvMkdirAll (filepath.Dir d); EvWriteFile d t]
  /\ write_unit (mkOptions false true) w' d t = (w', [EvOpen d], None).
Proof.
  intros Hd H. unfold write_unit in H. cbn [Embed Check_ andb] in H.
  rewrite Hd, WriteFile_eq in H. injection H as <- <-. split; [reflexivity|].
  unfold write_unit. cbn [Embed Check_ andb]. rewrite Hd.
  rewrite CheckFile_same_content; [reflexivity|]. cbn [files].
  rewrite lookup_insert, decide_True by reflexivity. reflexivity.
Qed.

Lemma embed_text_fixpoint T :
  kw_freeb T = true -> EmbedContents (Some (embed_text T)) T = embed_text T.
Proof.
  intros HT. set (C := [nl; nl] ++ T ++ [nl; nl]).
  pose proof (merge_blocks [] [(Region C, [])] T kw_free_nil
                (or_introl eq_refl) (kw_freeb_spec T HT)) as H.
  assert (E1 : [] ++ blocks_text [(Region C, [])] = embed_text T)
    by (rewrite embed_text_markers; cbn [blocks_text marker_text app];
        rewrite !app_nil_r; reflexivity).
  assert (E2 : [] ++ blocks_replaced T [(Region C, [])] = embed_text T)
    by (cbn [blocks_replaced app]; rewrite !app_nil_r; reflexivity).
  rewrite E1, E2 in H. apply H; [|discriminate].
  cbn [wf_blocks marker_ok].
  repeat split; auto using kw_free_nil; [apply kw_free_nls, kw_freeb_spec, HT | left; reflexivity].
Qed.

(** When embedding into a missing file (with marker-free text) succeeds, it
    has written the embed block; a check run with the same text then passes
    and a second embed run leaves the files as they are. *)
Theorem embed_missing_file_runs w d T w1 ev1 :
  String.eqb d "" = false -> files w !! d = None -> kw_freeb T = true ->
  write_unit (mkOptions true false) w d T = (w1, ev1, None) ->
  files w1 !! d = Some (embed_text T)
  /\ write_unit (mkOptions true true) w1 d T = (w1, [EvReadFile d; EvOpen d], None)
  /\ files (fst (fst (write_unit (mkOptions true false) w1 d T))) = files w1.
Proof.
  intros Hd Hw HT H. unfold write_unit, EmbedContents_io, os_ReadFile in H.
  cbn [Embed Check_ andb negb] in H. rewrite Hd, Hw in H. cbn [negb andb] in H. rewrite WriteFile_eq in H.
  injection H as <- _.
  assert (L : files (mkWorld (<[d:=embed_text T]> (files w))) !! d = Some (embed_text T))
    by (cbn [files]; rewrite lookup_insert, decide_True by reflexivity; reflexivity).
  split; [exact L|]. split.
  - unfold write_unit, EmbedContents_io, os_ReadFile. cbn [Embed Check_ andb].
    rewrite Hd. cbn [negb]. rewrite L, embed_text_fixpoint by exact HT.
    rewrite CheckFile_same_content by exact L. reflexivity.
  - unfold write_unit, EmbedContents_io, os_ReadFile. cbn [Embed Check_ andb].
    rewrite Hd. cbn [negb]. rewrite L, embed_text_fixpoint by exact HT.
    rewrite WriteFile_eq. cbn [fst files]. rewrite insert_insert, decide_True by reflexivity. reflexivity.
Qed.


(** [CheckFile] reports the mismatch error when the file on disk differs
    from the text in a single byte. *)
Theorem CheckFile_one_byte_drift w path x y a b :
  a <> b -> files w !! path = Some (x ++ a :: y : bytes) ->
  CheckFile w (x ++ b :: y) path = ([EvOpen path], Some checkErr).
Proof.
  intros Hab Hf. unfold CheckFile, os_Open. rewrite Hf, Compare_no_error.
  destruct (Z.eqb_spec (fnv.hash128 (x ++ b :: y)) (fnv.hash128 (x ++ a :: y))) as [E|_].
  - exfalso. exact (hash128_one_byte x y a b Hab (eq_sym E)).
  - reflexivity.
Qed.

Lemma write_units_contents render w order w' evs :
  write_units render (mkOptions false false) w order = (w', evs, None) ->
  NoDup (map fst order) ->
  (forall d ps t, In (d, ps) order -> d <> EmptyString -> render ps = inl t ->
                  files w' !! d = Some t)
  /\ (forall d, (forall ps, In (d, ps) order -> d = EmptyString) ->
                files w' !! d = files w !! d).
Proof.
  revert w w' evs. induction order as [|[fn ps0] order IH]; intros w w' evs H Hnd;
    cbn [write_units] in H.
  - injection H as <- _. split; [intros d ps t []|auto].
  - destruct (render ps0) as [t0|e] eqn:R0; [|discriminate].
    inversion Hnd as [|? ? Hnotin Hnd']; subst.
    assert (U : exists w1 ev1, write_unit (mkOptions false false) w fn t0 = (w1, ev1, None)
                 /\ (fn = EmptyString -> w1 = w)
                 /\ (fn <> EmptyString -> w1 = mkWorld (<[fn := t0]> (files w)))).
    { unfold write_unit. cbn [Embed Check_ andb].
      destruct (String.eqb_spec fn "") as [E|E].
      - eexists _, _. split; [reflexivity|]. split; [auto|]. intros C; contradiction.
      - rewrite WriteFile_eq. eexists _, _. split; [reflexivity|].
        split; [intros C; contradiction|auto]. }
    destruct U as (w1 & ev1 & U & Hu1 & Hu2). rewrite U in H.
    destruct (write_units render _ w1 order) as [[w2 ev2] r2] eqn:R.
    injection H as -> _ ->. destruct (IH _ _ _ R Hnd') as [IHa IHb].
    assert (Keep : forall d, d <> fn \/ d = EmptyString -> files w1 !! d = files w !! d).
    { intros d Hd. destruct (String.eq_dec fn EmptyString) as [E|E].
      - rewrite Hu1 by exact E. reflexivity.
      - rewrite Hu2 by exact E. cbn [files].
        rewrite lookup_insert_ne; [reflexivity|]. destruct Hd as [Hd| ->]; congruence. }
    split.
    + intros d ps t [Heq|Hin] Hd Ht.
      * injection Heq as <- <-. rewrite R0 in Ht. injection Ht as <-.
        rewrite IHb.
        -- rewrite Hu2 by exact Hd. cbn [files].
           rewrite lookup_insert, decide_True by reflexivity. reflexivity.
        -- intros ps Hin. exfalso. apply Hnotin. apply list_elem_of_In, in_map_iff.
           exists (fn, ps). auto.
      * exact (IHa _ _ _ Hin Hd Ht).
    + intros d Hd. rewrite IHb by (intros ps Hin; apply (Hd ps); right; exact Hin).
      apply Keep. destruct (String.eq_dec d fn) as [->|E]; [right|left; exact E].
      apply (Hd ps0). left. reflexivity.
Qed.

(** After a successful write run of [WriteOutput], each destination other
    than [""] that has packages holds its rendered text, and every other
    path is unchanged. *)
Theorem WriteOutput_write_contents render specs order w w' evs :
  order ≡ₚ map_to_list (group_specs specs) ->
  write_units render (mkOptions false false) w order = (w', evs, None) ->
  (forall d t, d <> EmptyString -> dest_pkgs d specs <> [] ->
               render (dest_pkgs d specs) = inl t -> files w' !! d = Some t)
  /\ (forall d, d = EmptyString \/ dest_pkgs d specs = [] -> files w' !! d = files w !! d).
Proof.
  intros Hp H.
  assert (Hnd : NoDup (map fst order)).
  { assert (E : forall l : list (string * list Package), map fst l = l.*1).
    { induction l as [|x l IHl]; cbn; [reflexivity|]. rewrite IHl. reflexivity. }
    rewrite E, Hp. apply NoDup_fst_map_to_list. }
  assert (Hin : forall d ps, In (d, ps) order <-> ps = dest_pkgs d specs /\ ps <> []).
  { intros d ps. rewrite <- list_elem_of_In, Hp, elem_of_map_to_list, group_specs_lookup.
    destruct (dest_pkgs d specs) as [|p ps'].
    - split; [discriminate|]. intros [-> []]. reflexivity.
    - split.
      + intros [= <-]. split; [reflexivity|discriminate].
      + intros [-> _]. reflexivity. }
  destruct (write_units_contents _ _ _ _ _ H Hnd) as [Ha Hb]. split.
  - intros d t Hd Hne Ht. apply (Ha d (dest_pkgs d specs) t); auto.
    apply Hin. auto.
  - intros d Hd. apply Hb. intros ps Hps. apply Hin in Hps as [-> Hne].
    destruct Hd as [Hd|Hd]; [exact Hd|contradiction].
Qed.

Lemma WriteFile_success_creates_folder_witness :
  [EvMkdirAll (filepath.Dir "docs/README.md"); EvWriteFile "docs/README.md" (lit "doc")]
  = [EvMkdirAll "docs"; EvWriteFile "docs/README.md" (lit "doc")]
  /\ files (mkWorld (<["docs/README.md" := lit "doc"]> (files x_world))) !! "docs/README.md"
     = Some (lit "doc").
Proof.
  split; [vm_compute; reflexivity|].
  apply (WriteFile_success_creates_folder x_world "docs/README.md" (lit "doc") _
           [EvMkdirAll (filepath.Dir "docs/README.md"); EvWriteFile "docs/README.md" (lit "doc")]).
  vm_compute. reflexivity.
Defined.

Lemma ResolveOutput_empty_destination_witness :
  ResolveOutput x_exec x_specs
  = inl [new_spec "." "github.com/a/b" false false;
         set_OutputFile (new_spec "./c" "./c" false true) "c/README.md"]
  /\ Forall2 (fun s s' => exists out, x_exec s = inl out
                          /\ s' = set_OutputFile s (OutputFile s')
                          /\ (OutputFile s' = EmptyString <-> out = EmptyString)
                          /\ (out <> EmptyString -> OutputFile s' = filepath.Clean out))
             x_specs
             [new_spec "." "github.com/a/b" false false;
              set_OutputFile (new_spec "./c" "./c" false true) "c/README.md"].
Proof.
  assert (H : ResolveOutput x_exec x_specs
              = inl [new_spec "." "github.com/a/b" false false;
                     set_OutputFile (new_spec "./c" "./c" false true) "c/README.md"])
    by (vm_compute; reflexivity).
  split; [exact H|]. apply (ResolveOutput_empty_destination x_exec x_specs _ H).
Defined.

Lemma DefaultTags_join_roundtrip_witness :
  flag.Parse (flag.mkFlagSet [] "" []) (gostrings.Fields "-Tags=a,,b notaflag")
  = (None, flag.mkFlagSet ["notaflag"] "a,,b" ["Tags"])
  /\ String.concat "," (DefaultTags (Some "-Tags=a,,b notaflag"))
     = flag.tags (flag.mkFlagSet ["notaflag"] "a,,b" ["Tags"]).
Proof.
  assert (H : flag.Parse (flag.mkFlagSet [] "" []) (gostrings.Fields "-Tags=a,,b notaflag")
              = (None, flag.mkFlagSet ["notaflag"] "a,,b" ["Tags"]))
    by (vm_compute; reflexivity).
  split; [exact H|]. apply (DefaultTags_join_roundtrip _ _ H).
Defined.

Lemma ResolveOverrides_templates_witness :
  ResolveOverrides_with x_world x_resolve_opts
    (map_to_list (TemplateOverrides x_resolve_opts))
    (map_to_list (TemplateFileOverrides x_resolve_opts))
  = ([EvReadFile "b.tmpl"],
     inl [WithTemplateOverride "a" "x"; WithTemplateOverride "b" "B";
          WithFormat GitHubFlavoredMarkdown])
  /\ exists ovs f,
    [WithTemplateOverride "a" "x"; WithTemplateOverride "b" "B";
     WithFormat GitHubFlavoredMarkdown] = ovs ++ [WithFormat f]
    /\ format_of (Format x_resolve_opts) = Some f
    /\ forall name s, In (WithTemplateOverride name s) ovs
       <-> TemplateOverrides x_resolve_opts !! name = Some s
           \/ (TemplateOverrides x_resolve_opts !! name = None
               /\ exists file b, TemplateFileOverrides x_resolve_opts !! name = Some file
                                 /\ files x_world !! file = Some b
                                 /\ s = string_of_list_ascii b).
Proof.
  assert (H : ResolveOverrides_with x_world x_resolve_opts
                (map_to_list (TemplateOverrides x_resolve_opts))
                (map_to_list (TemplateFileOverrides x_resolve_opts))
              = ([EvReadFile "b.tmpl"],
                 inl [WithTemplateOverride "a" "x"; WithTemplateOverride "b" "B";
                      WithFormat GitHubFlavoredMarkdown]))
    by (vm_compute; reflexivity).
  split; [exact H|].
  apply (ResolveOverrides_templates x_world x_resolve_opts _ _ _ _
           (reflexivity _) (reflexivity _) H).
Defined.

Lemma LoadPackages_result_witness :
  LoadPackages string x_GetBuildPackage x_NewPackageFromBuild [] x_load_specs
  = inl [new_spec "./w" "./w" true true;
         set_Pkg (new_spec "./a" "./a" false true) (Some (mkPackage "./a"))]
  /\ Forall2 (fun s s' =>
                (exists b pkg, x_GetBuildPackage (ImportPath s) [] = inl b
                               /\ x_NewPackageFromBuild b = inl pkg
                               /\ s' = set_Pkg s (Some pkg))
                \/ (IsWildcard s = true
                    /\ (exists e, x_GetBuildPackage (ImportPath s) [] = inr e) /\ s' = s))
             x_load_specs
             [new_spec "./w" "./w" true true;
              set_Pkg (new_spec "./a" "./a" false true) (Some (mkPackage "./a"))].
Proof.
  assert (H : LoadPackages string x_GetBuildPackage x_NewPackageFromBuild [] x_load_specs
              = inl [new_spec "./w" "./w" true true;
                     set_Pkg (new_spec "./a" "./a" false true) (Some (mkPackage "./a"))])
    by (vm_compute; reflexivity).
  split; [exact H|]. apply (LoadPackages_result _ _ _ [] x_load_specs _ H).
Defined.

Lemma LoadPackages_nonwildcard_error_witness :
  exists e', LoadPackages string x_GetBuildPackage x_NewPackageFromBuild []
               (x_load_specs ++ [new_spec "./b" "./b" false true]) = inr e'.
Proof.
  apply (LoadPackages_nonwildcard_error _ _ _ [] _ (new_spec "./b" "./b" false true)
           (ErrorString "no buildable Go source files")).
  - simpl. right. right. left. reflexivity.
  - reflexivity.
  - vm_compute. reflexivity.
Defined.

Lemma GetSpecs_shape_witness :
  GetSpecs c6_fs 5 ["./pkgB/..."; "github.com/x/..."; "./a"]
  = Some [new_spec "./pkgB/" "./pkgB/" true true;
          new_spec "./pkgB/inner" "./pkgB/inner" true true;
          new_spec "." "github.com/x/..." false false;
          new_spec "./a" "./a" false true]
  /\ Forall (fun s =>
               OutputFile s = EmptyString /\ Pkg s = None
               /\ IsLocal s = IsLocalPath (Dir s)
               /\ (IsLocal s = true -> Dir s = ImportPath s)
               /\ (IsLocal s = false -> Dir s = "."%string)
               /\ (IsWildcard s = true -> IsLocal s = true))
            [new_spec "./pkgB/" "./pkgB/" true true;
             new_spec "./pkgB/inner" "./pkgB/inner" true true;
             new_spec "." "github.com/x/..." false false;
             new_spec "./a" "./a" false true].
Proof.
  assert (H : GetSpecs c6_fs 5 ["./pkgB/..."; "github.com/x/..."; "./a"]
              = Some [new_spec "./pkgB/" "./pkgB/" true true;
                      new_spec "./pkgB/inner" "./pkgB/inner" true true;
                      new_spec "." "github.com/x/..." false false;
                      new_spec "./a" "./a" false true])
    by (vm_compute; reflexivity).
  split; [exact H|]. apply (GetSpecs_shape _ _ _ _ H).
Defined.

Lemma GetSpecs_remote_path_witness :
  IsLocalPath "github.com/x/..." = false
  /\ GetSpecs c6_fs 5 ["github.com/x/..."] = Some [new_spec "." "github.com/x/..." false false].
Proof.
  split; [reflexivity|]. apply (GetSpecs_remote_path c6_fs 5 "github.com/x/..."). reflexivity.
Defined.


Lemma write_units_check_pure_witness :
  write_units c5_render (mkOptions true true) x_world x_units
  = (x_world, [EvStdout (lit "doc"); EvReadFile "README.md"; EvOpen "README.md"],
     Some checkErr)
  /\ x_world = x_world
  /\ Forall (fun e => match e with
                      | EvMkdirAll _ | EvWriteFile _ _ => False
                      | _ => True end)
            [EvStdout (lit "doc"); EvReadFile "README.md"; EvOpen "README.md"].
Proof.
  assert (H : write_units c5_render (mkOptions true true) x_world x_units
              = (x_world, [EvStdout (lit "doc"); EvReadFile "README.md"; EvOpen "README.md"],
                 Some checkErr))
    by (vm_compute; reflexivity).
  split; [exact H|]. apply (write_units_check_pure c5_render (mkOptions true true) x_world x_units _ _ _ eq_refl H).
Defined.

Lemma write_then_check_witness :
  [EvMkdirAll (filepath.Dir "README.md"); EvWriteFile "README.md" (lit "new")]
  = [EvMkdirAll (filepath.Dir "README.md"); EvWriteFile "README.md" (lit "new")]
  /\ write_unit (mkOptions false true) (mkWorld (<["README.md" := lit "new"]> (files x_world)))
       "README.md" (lit "new")
     = (mkWorld (<["README.md" := lit "new"]> (files x_world)), [EvOpen "README.md"], None).
Proof.
  apply (write_then_check x_world "README.md" (lit "new")); [reflexivity|].
  vm_compute. reflexivity.
Defined.

Lemma embed_missing_file_runs_witness :
  files (mkWorld (<["NEW.md" := embed_text (lit "doc")]> (files x_world))) !! "NEW.md"
     = Some (embed_text (lit "doc"))
  /\ write_unit (mkOptions true true)
       (mkWorld (<["NEW.md" := embed_text (lit "doc")]> (files x_world))) "NEW.md" (lit "doc")
     = (mkWorld (<["NEW.md" := embed_text (lit "doc")]> (files x_world)),
        [EvReadFile "NEW.md"; EvOpen "NEW.md"], None)
  /\ files (fst (fst (write_unit (mkOptions true false)
                        (mkWorld (<["NEW.md" := embed_text (lit "doc")]> (files x_world)))
                        "NEW.md" (lit "doc"))))
     = files (mkWorld (<["NEW.md" := embed_text (lit "doc")]> (files x_world))).
Proof.
  apply (embed_missing_file_runs x_world "NEW.md" (lit "doc") _
           [EvReadFile "NEW.md"; EvMkdirAll "."; EvWriteFile "NEW.md" (embed_text (lit "doc"))]).
  - reflexivity.
  - vm_compute. reflexivity.
  - reflexivity.
  - vm_compute. reflexivity.
Defined.


Lemma CheckFile_one_byte_drift_witness :
  "o"%char <> "0"%char /\ files x_world !! "README.md" = Some (lit "d" ++ "o"%char :: lit "c" : bytes)
  /\ CheckFile x_world (lit "d" ++ "0"%char :: lit "c") "README.md"
     = ([EvOpen "README.md"], Some checkErr).
Proof.
  assert (Hab : "o"%char <> "0"%char) by discriminate.
  assert (Hf : files x_world !! "README.md" = Some (lit "d" ++ "o"%char :: lit "c" : bytes))
    by (vm_compute; reflexivity).
  split; [exact Hab|]. split; [exact Hf|].
  apply (CheckFile_one_byte_drift _ _ _ _ _ _ Hab Hf).
Defined.

Lemma WriteOutput_write_contents_witness :
  write_units c5_render (mkOptions false false) (mkWorld ∅)
    (map_to_list (group_specs c5_specs))
  = (mkWorld (<["b.md" := lit "doc"]> (<["a.md" := lit "doc"]> ∅)),
     [EvMkdirAll "."; EvWriteFile "a.md" (lit "doc");
      EvMkdirAll "."; EvWriteFile "b.md" (lit "doc")], None)
  /\ (forall d t, d <> EmptyString -> dest_pkgs d c5_specs <> [] ->
                  c5_render (dest_pkgs d c5_specs) = inl t ->
                  files (mkWorld (<["b.md" := lit "doc"]> (<["a.md" := lit "doc"]> ∅))) !! d
                  = Some t)
  /\ (forall d, d = EmptyString \/ dest_pkgs d c5_specs = [] ->
                files (mkWorld (<["b.md" := lit "doc"]> (<["a.md" := lit "doc"]> ∅))) !! d
                = files (mkWorld ∅) !! d).
Proof.
  assert (H : write_units c5_render (mkOptions false false) (mkWorld ∅)
                (map_to_list (group_specs c5_specs))
              = (mkWorld (<["b.md" := lit "doc"]> (<["a.md" := lit "doc"]> ∅)),
                 [EvMkdirAll "."; EvWriteFile "a.md" (lit "doc");
                  EvMkdirAll "."; EvWriteFile "b.md" (lit "doc")], None))
    by (vm_compute; reflexivity).
  split; [exact H|]. apply (WriteOutput_write_contents _ _ _ _ _ _ (reflexivity _) H).
Defined.
